(** * picobutton: two-player LED driver and spacebar HID for the Raspberry Pi Pico

    A shallow embedding of [src/picostuff/picobutton.cpp] and the properties
    of its blink state machine, its serial command switch and its button
    edge detector.

    The sketch talks to the Arduino core ([millis], [delay], [digitalRead],
    [digitalWrite], [Serial], [Keyboard]).  The core is modelled as a small
    state-and-output monad over a [Board]: what the board feeds the sketch
    (clock, button line, serial receive buffer) is state, what the sketch
    drives (pin writes, key events) is an output trace. *)

From Stdlib Require Import ZArith List Ascii Bool Lia.
Import ListNotations.
Local Open Scope Z_scope.

(** ** Arduino core: values *)

(** [LOW] and [HIGH], the two values [digitalRead] returns and
    [digitalWrite] takes. *)
Inductive Level : Type := LOW | HIGH.

Definition Level_eqb (a b : Level) : bool :=
  match a, b with
  | LOW, LOW | HIGH, HIGH => true
  | _, _ => false
  end.

Inductive PinMode : Type := INPUT | OUTPUT.

(** [unsigned long] is 32 bits wide on the Pico (Cortex-M0+): arithmetic on
    timestamps wraps modulo [2^32]. *)
Definition ULONG_MAX : Z := 2 ^ 32 - 1.

Definition ulong (z : Z) : Z := z mod (ULONG_MAX + 1).

(** [a - b] on two [unsigned long]. *)
Definition ulong_sub (a b : Z) : Z := ulong (a - b).

(** What the sketch does to the outside world, in program order. *)
Inductive Event : Type :=
| EvPinMode (pin : Z) (m : PinMode)
| EvDigitalWrite (pin : Z) (lv : Level)
| EvSerialBegin (baud : Z)
| EvKeyboardBegin
| EvKeyboardPress (key : ascii)
| EvKeyboardReleaseAll.

(** What the outside world presents to the sketch.
    - [clock]: the millisecond counter at the last moment it was observed or
      advanced;
    - [elapsed]: milliseconds that pass before each coming [millis()] call on
      top of the [delay]s (consumed one entry per call; none left means the
      code in between took less than a millisecond);
    - [button]: the level on the input line;
    - [rx]: the bytes waiting in the serial receive buffer, oldest first. *)
Record Board : Type := mkBoard {
  clock : Z;
  elapsed : list Z;
  button : Level;
  rx : list ascii
}.

Definition with_clock (b : Board) (t : Z) : Board :=
  mkBoard t (elapsed b) (button b) (rx b).
Definition with_elapsed (b : Board) (l : list Z) : Board :=
  mkBoard (clock b) l (button b) (rx b).
Definition with_button (b : Board) (lv : Level) : Board :=
  mkBoard (clock b) (elapsed b) lv (rx b).
Definition with_rx (b : Board) (l : list ascii) : Board :=
  mkBoard (clock b) (elapsed b) (button b) l.

(** ** The monad of sketch code *)

Record Res (A : Type) : Type := mkRes {
  val : A;
  board : Board;
  out : list Event
}.
Arguments mkRes {A} _ _ _.
Arguments val {A} _.
Arguments board {A} _.
Arguments out {A} _.

Definition M (A : Type) : Type := Board -> Res A.

Definition ret {A : Type} (a : A) : M A := fun b => mkRes a b [].

Definition bind {A B : Type} (m : M A) (k : A -> M B) : M B :=
  fun b =>
    let r1 := m b in
    let r2 := k (val r1) (board r1) in
    mkRes (val r2) (board r2) (out r1 ++ out r2).

Declare Scope sketch_scope.
Delimit Scope sketch_scope with sketch.
Notation "x <- m ;; k" := (bind m (fun x => k))
  (at level 61, m at next level, right associativity) : sketch_scope.
Notation "m ;; k" := (bind m (fun _ => k))
  (at level 61, right associativity) : sketch_scope.
Local Open Scope sketch_scope.

Definition emit (e : Event) : M unit := fun b => mkRes tt b [e].

(** ** Arduino core: calls *)

Definition millis : M Z := fun b =>
  match elapsed b with
  | [] => mkRes (clock b) b []
  | d :: ds =>
      let t := ulong (clock b + d) in
      mkRes t (with_elapsed (with_clock b t) ds) []
  end.

Definition delay (ms : Z) : M unit := fun b =>
  mkRes tt (with_clock b (ulong (clock b + ms))) [].

Definition pinMode (pin : Z) (m : PinMode) : M unit := emit (EvPinMode pin m).

Definition digitalWrite (pin : Z) (lv : Level) : M unit :=
  emit (EvDigitalWrite pin lv).

Definition digitalRead (pin : Z) : M Level := fun b => mkRes (button b) b [].

Definition Serial_begin (baud : Z) : M unit := emit (EvSerialBegin baud).

Definition Serial_available : M Z := fun b =>
  mkRes (Z.of_nat (length (rx b))) b [].

(** [Serial.read()] takes the oldest byte; on an empty buffer it returns -1,
    which the sketch stores into a [char]. *)
Definition Serial_read : M ascii := fun b =>
  match rx b with
  | [] => mkRes (ascii_of_nat 255) b []
  | c :: cs => mkRes c (with_rx b cs) []
  end.

Definition Keyboard_begin : M unit := emit EvKeyboardBegin.
Definition Keyboard_press (key : ascii) : M unit := emit (EvKeyboardPress key).
Definition Keyboard_releaseAll : M unit := emit EvKeyboardReleaseAll.

(** ** The sketch: globals *)

Definition P1_LED_PIN : Z := 16.
Definition P2_LED_PIN : Z := 17.

(** [LED_BUILTIN] comes from the board definition of the core, not from the
    sketch; on the Pico it is GPIO 25. *)
Definition LED_BUILTIN : Z := 25.
Definition PI_LED : Z := LED_BUILTIN.

Definition BUTTON_LED : Z := 19.
Definition BUTTON_PIN : Z := 18.

Inductive LedMode : Type :=
| OFF_MODE
| SOLID_ON
| BLINK_1HZ
| BLINK_2HZ
| BLINK_4HZ.

Record PlayerLed : Type := mkPlayerLed {
  pin : Z;
  mode : LedMode;
  lastToggleMs : Z;
  currentLevel : Level
}.

Definition with_mode (pl : PlayerLed) (m : LedMode) : PlayerLed :=
  mkPlayerLed (pin pl) m (lastToggleMs pl) (currentLevel pl).
Definition with_lastToggleMs (pl : PlayerLed) (t : Z) : PlayerLed :=
  mkPlayerLed (pin pl) (mode pl) t (currentLevel pl).
Definition with_currentLevel (pl : PlayerLed) (lv : Level) : PlayerLed :=
  mkPlayerLed (pin pl) (mode pl) (lastToggleMs pl) lv.

(** The mutable globals of the sketch: [P1], [P2] and [lastState]. *)
Record Globals : Type := mkGlobals {
  P1 : PlayerLed;
  P2 : PlayerLed;
  lastState : Level
}.

Definition with_P1 (g : Globals) (pl : PlayerLed) : Globals :=
  mkGlobals pl (P2 g) (lastState g).
Definition with_P2 (g : Globals) (pl : PlayerLed) : Globals :=
  mkGlobals (P1 g) pl (lastState g).
Definition with_lastState (g : Globals) (lv : Level) : Globals :=
  mkGlobals (P1 g) (P2 g) lv.

(** The initialisers: [PlayerLed P1{P1_LED_PIN}], [PlayerLed P2{P2_LED_PIN}]
    with the default member values, and [int lastState = HIGH]. *)
Definition initial : Globals :=
  mkGlobals (mkPlayerLed P1_LED_PIN OFF_MODE 0 LOW)
            (mkPlayerLed P2_LED_PIN OFF_MODE 0 LOW)
            HIGH.

(** ** The sketch: functions *)

Definition modeToInterval (m : LedMode) : Z :=
  match m with
  | BLINK_1HZ => 500
  | BLINK_2HZ => 250
  | BLINK_4HZ => 125
  | _ => 0
  end.

(** [pl] is passed by reference in the source; here the updated struct is
    returned and the caller stores it back. *)
Definition applyModeImmediate (pl : PlayerLed) : M PlayerLed :=
  pl <- match mode pl with
        | OFF_MODE =>
            digitalWrite (pin pl) LOW ;; ret (with_currentLevel pl LOW)
        | SOLID_ON =>
            digitalWrite (pin pl) HIGH ;; ret (with_currentLevel pl HIGH)
        | _ => ret pl
        end ;;
  t <- millis ;;
  ret (with_lastToggleMs pl t).

Definition updateBlink (pl : PlayerLed) (now : Z) : M PlayerLed :=
  match mode pl with
  | BLINK_1HZ | BLINK_2HZ | BLINK_4HZ =>
      let interval := modeToInterval (mode pl) in
      if interval <=? ulong_sub now (lastToggleMs pl) then
        let lv := match currentLevel pl with LOW => HIGH | HIGH => LOW end in
        digitalWrite (pin pl) lv ;;
        ret (with_lastToggleMs (with_currentLevel pl lv) now)
      else ret pl
  | _ => ret pl
  end.

Definition setup (g : Globals) : M Globals :=
  pinMode P1_LED_PIN OUTPUT ;;
  pinMode P2_LED_PIN OUTPUT ;;
  pinMode BUTTON_LED OUTPUT ;;
  pinMode PI_LED OUTPUT ;;
  pinMode BUTTON_PIN INPUT ;;
  digitalWrite P1_LED_PIN LOW ;;
  digitalWrite P2_LED_PIN LOW ;;
  Serial_begin 9600 ;;
  Keyboard_begin ;;
  p1 <- applyModeImmediate (P1 g) ;;
  p2 <- applyModeImmediate (P2 g) ;;
  ret (with_P2 (with_P1 g p1) p2).

(** The edge test of line 97, [state == HIGH && lastState == LOW]. *)
Definition press_edge (lastSt state : Level) : bool :=
  Level_eqb state HIGH && Level_eqb lastSt LOW.

(** Lines 87-105 of [loop]: mirror the button, detect the press edge. *)
Definition loop_button (g : Globals) : M Globals :=
  state <- digitalRead BUTTON_PIN ;;
  match state with
  | HIGH => digitalWrite BUTTON_LED HIGH
  | LOW => digitalWrite BUTTON_LED LOW
  end ;;
  (if press_edge (lastState g) state then
     digitalWrite PI_LED HIGH ;;
     Keyboard_press " "%char ;;
     delay 50 ;;
     Keyboard_releaseAll
   else digitalWrite PI_LED LOW) ;;
  ret (with_lastState g state).

(** The [switch (c)] of lines 110-131. *)
Definition loop_switch (c : ascii) (g : Globals) : M Globals :=
  match c with
  | "A"%char => p <- applyModeImmediate (with_mode (P1 g) SOLID_ON) ;; ret (with_P1 g p)
  | "a"%char => p <- applyModeImmediate (with_mode (P1 g) OFF_MODE) ;; ret (with_P1 g p)
  | "B"%char => p <- applyModeImmediate (with_mode (P2 g) SOLID_ON) ;; ret (with_P2 g p)
  | "b"%char => p <- applyModeImmediate (with_mode (P2 g) OFF_MODE) ;; ret (with_P2 g p)
  | "Y"%char =>
      let g := with_P1 g (with_mode (P1 g) SOLID_ON) in
      let g := with_P2 g (with_mode (P2 g) SOLID_ON) in
      p1 <- applyModeImmediate (P1 g) ;;
      p2 <- applyModeImmediate (P2 g) ;;
      ret (with_P2 (with_P1 g p1) p2)
  | "X"%char =>
      let g := with_P1 g (with_mode (P1 g) OFF_MODE) in
      let g := with_P2 g (with_mode (P2 g) OFF_MODE) in
      p1 <- applyModeImmediate (P1 g) ;;
      p2 <- applyModeImmediate (P2 g) ;;
      ret (with_P2 (with_P1 g p1) p2)
  | "1"%char => p <- applyModeImmediate (with_mode (P1 g) BLINK_1HZ) ;; ret (with_P1 g p)
  | "2"%char => p <- applyModeImmediate (with_mode (P1 g) BLINK_2HZ) ;; ret (with_P1 g p)
  | "3"%char => p <- applyModeImmediate (with_mode (P1 g) BLINK_4HZ) ;; ret (with_P1 g p)
  | "4"%char => p <- applyModeImmediate (with_mode (P2 g) BLINK_1HZ) ;; ret (with_P2 g p)
  | "5"%char => p <- applyModeImmediate (with_mode (P2 g) BLINK_2HZ) ;; ret (with_P2 g p)
  | "6"%char => p <- applyModeImmediate (with_mode (P2 g) BLINK_4HZ) ;; ret (with_P2 g p)
  | _ => ret g
  end.

(** Lines 107-132 of [loop]: at most one [Serial.read()] per pass. *)
Definition loop_serial (g : Globals) : M Globals :=
  n <- Serial_available ;;
  if 0 <? n then
    c <- Serial_read ;;
    loop_switch c g
  else ret g.

Definition loop (g : Globals) : M Globals :=
  now <- millis ;;
  g <- loop_button g ;;
  g <- loop_serial g ;;
  p1 <- updateBlink (P1 g) now ;;
  p2 <- updateBlink (P2 g) now ;;
  delay 1 ;;
  ret (with_P2 (with_P1 g p1) p2).

(** ** Vocabulary of the statements *)

Definition is_blink (m : LedMode) : bool :=
  match m with
  | BLINK_1HZ | BLINK_2HZ | BLINK_4HZ => true
  | _ => false
  end.

Definition toggled (lv : Level) : Level :=
  match lv with LOW => HIGH | HIGH => LOW end.

(** The statement pair [P.mode = m; applyModeImmediate(P);] that the cases
    of the switch run on one player: a mode change. *)
Definition set_mode (pl : PlayerLed) (m : LedMode) : M PlayerLed :=
  applyModeImmediate (with_mode pl m).

(** Successive [updateBlink] calls on one player, one per clock value. *)
Fixpoint ticks (pl : PlayerLed) (nows : list Z) : M PlayerLed :=
  match nows with
  | [] => ret pl
  | now :: rest => pl' <- updateBlink pl now ;; ticks pl' rest
  end.

(** Successive passes of [loop]; before each pass the button line takes the
    next level of [raws]. *)
Fixpoint loops (raws : list Level) (g : Globals) : M Globals :=
  match raws with
  | [] => ret g
  | raw :: rest =>
      g' <- (fun b => loop g (with_button b raw)) ;; loops rest g'
  end.

(** A call of [updateBlink] that toggles: the level is inverted, the new
    level is written to the player's pin, the timer restarts at [now]. *)
Definition flips (pl : PlayerLed) (now : Z) (b : Board) (r : Res PlayerLed) : Prop :=
  val r = mkPlayerLed (pin pl) (mode pl) now (toggled (currentLevel pl)) /\
  out r = [EvDigitalWrite (pin pl) (toggled (currentLevel pl))] /\
  board r = b.

(** A call that does nothing: no field changes, nothing is written. *)
Definition idles (pl : PlayerLed) (b : Board) (r : Res PlayerLed) : Prop :=
  r = mkRes pl b [].

(** A player whose level agrees with its static mode. *)
Definition settled (pl : PlayerLed) : Prop :=
  match mode pl with
  | OFF_MODE => currentLevel pl = LOW
  | SOLID_ON => currentLevel pl = HIGH
  | _ => True
  end.

(** ** The command table as the specification words it *)

Inductive Player : Type := PLAYER1 | PLAYER2.

Definition led (p : Player) (g : Globals) : PlayerLed :=
  match p with PLAYER1 => P1 g | PLAYER2 => P2 g end.

Definition with_led (p : Player) (g : Globals) (pl : PlayerLed) : Globals :=
  match p with PLAYER1 => with_P1 g pl | PLAYER2 => with_P2 g pl end.

(** The table of section 4.2 of the specification, written from its words:
    a command byte yields a list of (player, mode) commands.  It is compared
    with the switch of [loop] in [loop_switch_interpret]. *)
Definition interpret (c : ascii) : list (Player * LedMode) :=
  match c with
  | "A"%char => [(PLAYER1, SOLID_ON)]
  | "a"%char => [(PLAYER1, OFF_MODE)]
  | "B"%char => [(PLAYER2, SOLID_ON)]
  | "b"%char => [(PLAYER2, OFF_MODE)]
  | "Y"%char => [(PLAYER1, SOLID_ON); (PLAYER2, SOLID_ON)]
  | "X"%char => [(PLAYER1, OFF_MODE); (PLAYER2, OFF_MODE)]
  | "1"%char => [(PLAYER1, BLINK_1HZ)]
  | "2"%char => [(PLAYER1, BLINK_2HZ)]
  | "3"%char => [(PLAYER1, BLINK_4HZ)]
  | "4"%char => [(PLAYER2, BLINK_1HZ)]
  | "5"%char => [(PLAYER2, BLINK_2HZ)]
  | "6"%char => [(PLAYER2, BLINK_4HZ)]
  | _ => []
  end.

(** The bytes of the command table. *)
Definition command_bytes : list ascii :=
  ["A"; "a"; "B"; "b"; "Y"; "X"; "1"; "2"; "3"; "4"; "5"; "6"]%char.

(** The controller of the specification: each command is a mode change of
    its player, in list order. *)
Fixpoint apply_commands (cmds : list (Player * LedMode)) (g : Globals)
  : M Globals :=
  match cmds with
  | [] => ret g
  | (p, m) :: rest =>
      pl <- set_mode (led p g) m ;; apply_commands rest (with_led p g pl)
  end.

(** The modes alone, as a pair (mode of P1, mode of P2). *)
Definition modes (g : Globals) : LedMode * LedMode :=
  (mode (P1 g), mode (P2 g)).

Definition command_modes (ms : LedMode * LedMode) (c : ascii)
  : LedMode * LedMode :=
  fold_left (fun ms cmd =>
               match cmd with
               | (PLAYER1, m) => (m, snd ms)
               | (PLAYER2, m) => (fst ms, m)
               end)
            (interpret c) ms.

(** The level a mode change leaves: fixed by a static mode, kept by a blink
    mode. *)
Definition level_after (m : LedMode) (lv : Level) : Level :=
  match m with
  | OFF_MODE => LOW
  | SOLID_ON => HIGH
  | _ => lv
  end.

(** ** Projections of the output trace *)

(** The levels written to [pin], in order. *)
Fixpoint pin_writes (q : Z) (evs : list Event) : list Level :=
  match evs with
  | [] => []
  | EvDigitalWrite q' lv :: rest =>
      if q' =? q then lv :: pin_writes q rest else pin_writes q rest
  | _ :: rest => pin_writes q rest
  end.

(** The keys pressed, in order. *)
Fixpoint key_presses (evs : list Event) : list ascii :=
  match evs with
  | [] => []
  | EvKeyboardPress k :: rest => k :: key_presses rest
  | _ :: rest => key_presses rest
  end.

(** The edge tests of successive passes that sample [raws], the stored
    sample being [lastSt] before the first. *)
Fixpoint press_edges (lastSt : Level) (raws : list Level) : list bool :=
  match raws with
  | [] => []
  | raw :: rest => press_edge lastSt raw :: press_edges raw rest
  end.

(** The level the built-in LED gets in a pass, by its edge test. *)
Definition edge_level (e : bool) : Level := if e then HIGH else LOW.

(** Events that are writes to one of the two player pins of [g]. *)
Definition player_write (g : Globals) (e : Event) : Prop :=
  exists lv, e = EvDigitalWrite (pin (P1 g)) lv \/
             e = EvDigitalWrite (pin (P2 g)) lv.

(** Both players still drive the pins they were constructed with. *)
Definition wired (g : Globals) : Prop :=
  pin (P1 g) = P1_LED_PIN /\ pin (P2 g) = P2_LED_PIN.

(** The board seen by the sketch changed in its clock only. *)
Definition clock_only (b b' : Board) : Prop :=
  button b' = button b /\ rx b' = rx b.

(** ** Runs since power-up *)

(** The globals and the whole output since power-up: [setup] on the
    initial globals, then any number of passes of [loop], each on whatever
    board it finds (any button level, any bytes received, any time gone
    by). *)
Inductive reaches : Globals -> list Event -> Prop :=
| reaches_setup (b : Board) :
    reaches (val (setup initial b)) (out (setup initial b))
| reaches_loop (g : Globals) (tr : list Event) (b : Board) :
    reaches g tr -> reaches (val (loop g b)) (tr ++ out (loop g b)).

(** The pins the sketch drives. *)
Definition output_pins : list Z :=
  [P1_LED_PIN; P2_LED_PIN; BUTTON_LED; PI_LED].


(** The clock values of [n] calls made one millisecond apart, the first
    one millisecond after [T]. *)
Definition poll_times (T : Z) (n : nat) : list Z :=
  map (fun k => ulong (T + Z.of_nat k)) (seq 1 n).

(** [n] inversions of a level. *)
Definition toggled_times (n : Z) (lv : Level) : Level :=
  if Z.even n then lv else toggled lv.

(** ** Arithmetic on timestamps *)

Lemma ulong_range (z : Z) : 0 <= ulong z <= ULONG_MAX.
Proof.
  unfold ulong, ULONG_MAX.
  pose proof (Z.mod_pos_bound z (2 ^ 32 - 1 + 1) ltac:(lia)). lia.
Qed.

Lemma ulong_small (z : Z) : 0 <= z <= ULONG_MAX -> ulong z = z.
Proof.
  unfold ulong, ULONG_MAX. intros H. apply Z.mod_small. lia.
Qed.

(** On a clock that has not wrapped, the wrapping difference is the real
    one. *)
Lemma ulong_sub_exact (now last : Z) :
  0 <= last <= now -> now <= ULONG_MAX -> ulong_sub now last = now - last.
Proof.
  intros H1 H2. unfold ulong_sub. apply ulong_small. lia.
Qed.

(** [k] milliseconds after [t] the wrapping difference is [k], wherever [t]
    lies and even when the counter wraps in between. *)
Lemma ulong_sub_after (t k : Z) :
  0 <= k <= ULONG_MAX -> ulong_sub (ulong (t + k)) t = k.
Proof.
  intros H. unfold ulong_sub, ulong.
  rewrite Zminus_mod_idemp_l.
  replace (t + k - t) with k by lia.
  apply Z.mod_small. unfold ULONG_MAX in *. lia.
Qed.

Lemma interval_blink (m : LedMode) :
  is_blink m = true -> 125 <= modeToInterval m <= 500.
Proof. destruct m; simpl; intros H; try discriminate; lia. Qed.

(** ** [updateBlink] *)

Lemma updateBlink_static (pl : PlayerLed) (now : Z) (b : Board) :
  is_blink (mode pl) = false -> updateBlink pl now b = mkRes pl b [].
Proof.
  unfold updateBlink. destruct (mode pl); simpl; intros H;
    try discriminate; reflexivity.
Qed.

Lemma updateBlink_due (pl : PlayerLed) (now : Z) (b : Board) :
  is_blink (mode pl) = true ->
  modeToInterval (mode pl) <= ulong_sub now (lastToggleMs pl) ->
  updateBlink pl now b =
  mkRes (mkPlayerLed (pin pl) (mode pl) now (toggled (currentLevel pl)))
        b [EvDigitalWrite (pin pl) (toggled (currentLevel pl))].
Proof.
  destruct pl as [pn m t lv]. simpl. intros Hb Hd. apply Z.leb_le in Hd.
  unfold updateBlink.
  destruct m; try discriminate;
    cbn [mode lastToggleMs modeToInterval] in *; rewrite Hd; reflexivity.
Qed.

Lemma updateBlink_early (pl : PlayerLed) (now : Z) (b : Board) :
  ulong_sub now (lastToggleMs pl) < modeToInterval (mode pl) ->
  updateBlink pl now b = mkRes pl b [].
Proof.
  destruct pl as [pn m t lv]. simpl. intros Hd. apply Z.leb_gt in Hd.
  unfold updateBlink.
  destruct m; cbn [mode lastToggleMs modeToInterval] in *;
    try rewrite Hd; reflexivity.
Qed.

Lemma toggled_neq (lv : Level) : toggled lv <> lv.
Proof. destruct lv; discriminate. Qed.

Lemma ticks_static (pl : PlayerLed) (nows : list Z) (b : Board) :
  is_blink (mode pl) = false -> ticks pl nows b = mkRes pl b [].
Proof.
  intros H. induction nows as [|now rest IH]; [reflexivity|].
  simpl. unfold bind. rewrite (updateBlink_static pl now b H).
  simpl. rewrite IH. reflexivity.
Qed.

Lemma ticks_early (pl : PlayerLed) (nows : list Z) (b : Board) :
  Forall (fun now => ulong_sub now (lastToggleMs pl) < modeToInterval (mode pl))
         nows ->
  ticks pl nows b = mkRes pl b [].
Proof.
  induction 1 as [|now rest Hnow _ IH]; [reflexivity|].
  simpl. unfold bind. rewrite (updateBlink_early pl now b Hnow).
  simpl. rewrite IH. reflexivity.
Qed.

(** ** Claims on [updateBlink] *)

(** The difference [updateBlink] compares with the interval is the one of
    32-bit unsigned arithmetic. *)
Lemma ulong_sub_mod (a c : Z) : ulong_sub a c = (a - c) mod 2 ^ 32.
Proof. reflexivity. Qed.

(** C1, as stated, fails: the claim decides on the plain difference
    [now - lastToggleMs].  With the timer one millisecond ahead of [now]
    that difference is [-1], below the period, and [updateBlink] toggles
    all the same, because as [unsigned long] the difference is
    [2^32 - 1].  The call is one [loop] makes: after [setup], in a pass
    that finds ['1'] while [millis()] reads 1000 at the head of [loop] and
    1001 inside [applyModeImmediate]. *)
Lemma C1_counterexample :
  let pl := mkPlayerLed P1_LED_PIN BLINK_1HZ 1001 LOW in
  let b := mkBoard 1001 [] LOW [] in
  is_blink (mode pl) = true /\
  1000 - lastToggleMs pl = -1 /\
  ~ (modeToInterval (mode pl) <= 1000 - lastToggleMs pl) /\
  flips pl 1000 b (updateBlink pl 1000 b) /\
  ~ (flips pl 1000 b (updateBlink pl 1000 b) <->
     modeToInterval (mode pl) <= 1000 - lastToggleMs pl) /\
  (let g := val (setup initial (mkBoard 0 [] LOW [])) in
   let b1 := mkBoard 1000 [0; 1] LOW ["1"%char] in
   val (millis b1) = 1000 /\
   val (set_mode (P1 g) BLINK_1HZ (board (millis b1))) = pl).
Proof.
  cbv zeta.
  assert (F : flips (mkPlayerLed P1_LED_PIN BLINK_1HZ 1001 LOW) 1000
                    (mkBoard 1001 [] LOW [])
                    (updateBlink (mkPlayerLed P1_LED_PIN BLINK_1HZ 1001 LOW)
                                 1000 (mkBoard 1001 [] LOW [])))
    by (repeat split).
  assert (N : ~ (modeToInterval
                   (mode (mkPlayerLed P1_LED_PIN BLINK_1HZ 1001 LOW)) <=
                 1000 - lastToggleMs
                          (mkPlayerLed P1_LED_PIN BLINK_1HZ 1001 LOW)))
    by (simpl; lia).
  split; [reflexivity|]. split; [reflexivity|]. split; [exact N|].
  split; [exact F|]. split; [|split; reflexivity].
  intros [H _]. exact (N (H F)).
Qed.

(** C1, amended.  For a player in a blink mode with period [p] (500, 250
    and 125 for the 1 Hz, 2 Hz and 4 Hz modes), [updateBlink pl now]
    inverts the level, writes it to the pin and restarts the timer at [now]
    if and only if [(now - lastToggleMs) mod 2^32 >= p], the difference the
    code takes on [unsigned long]; otherwise it changes nothing.  Whenever
    the timer is not ahead of [now] this is the plain difference
    [now - lastToggleMs].  However many periods have gone by, one call
    toggles once: it emits at most one write, and with [k] periods elapsed
    the level is inverted once. *)
Theorem C1_updateBlink_toggles_iff_interval_elapsed :
  forall (pl : PlayerLed) (now : Z) (b : Board),
    is_blink (mode pl) = true ->
    let p := modeToInterval (mode pl) in
    let d := (now - lastToggleMs pl) mod 2 ^ 32 in
    let r := updateBlink pl now b in
    (modeToInterval BLINK_1HZ = 500 /\
     modeToInterval BLINK_2HZ = 250 /\
     modeToInterval BLINK_4HZ = 125) /\
    (flips pl now b r <-> p <= d) /\
    (idles pl b r <-> d < p) /\
    (length (out r) <= 1)%nat /\
    (forall k, 1 <= k -> k * p <= d -> flips pl now b r) /\
    (0 <= lastToggleMs pl <= now -> now < 2 ^ 32 ->
     (flips pl now b r <-> p <= now - lastToggleMs pl) /\
     (idles pl b r <-> now - lastToggleMs pl < p)).
Proof.
  intros pl now b Hb p d r.
  pose proof (interval_blink _ Hb) as Hp. fold p in Hp.
  assert (Ed : ulong_sub now (lastToggleMs pl) = d)
    by apply ulong_sub_mod.
  assert (Hdue : p <= d -> flips pl now b r).
  { intros Hd. subst r. rewrite <- Ed in Hd.
    rewrite (updateBlink_due pl now b Hb Hd). repeat split. }
  assert (Hearly : d < p -> idles pl b r).
  { intros Hd. subst r. apply updateBlink_early. rewrite Ed. exact Hd. }
  assert (Hflip : flips pl now b r <-> p <= d).
  { split; [|exact Hdue].
    intros [Hv _]. destruct (Z.le_gt_cases p d) as [Hd|Hd]; [exact Hd|].
    exfalso. rewrite (Hearly Hd) in Hv. simpl in Hv.
    apply (toggled_neq (currentLevel pl)).
    rewrite Hv at 2. reflexivity. }
  assert (Hidle : idles pl b r <-> d < p).
  { split; [|exact Hearly].
    intros Hi. destruct (Z.le_gt_cases p d) as [Hd|Hd]; [|exact Hd].
    exfalso. destruct (Hdue Hd) as (_ & Ho & _).
    rewrite Hi in Ho. discriminate. }
  split; [repeat split|].
  split; [exact Hflip|]. split; [exact Hidle|]. split; [|split].
  - destruct (Z.le_gt_cases p d) as [Hd|Hd].
    + destruct (Hdue Hd) as (_ & Ho & _). rewrite Ho. simpl. lia.
    + rewrite (Hearly Hd). simpl. lia.
  - intros k Hk Hkd. apply Hdue. nia.
  - intros H1 H2.
    assert (E : d = now - lastToggleMs pl)
      by (subst d; apply Z.mod_small; lia).
    rewrite <- E. split; assumption.
Qed.

Lemma C1_witness :
  is_blink (mode (mkPlayerLed 16 BLINK_2HZ 1000 LOW)) = true /\
  flips (mkPlayerLed 16 BLINK_2HZ 1000 LOW) 1800 (mkBoard 1800 [] LOW [])
        (updateBlink (mkPlayerLed 16 BLINK_2HZ 1000 LOW) 1800
                     (mkBoard 1800 [] LOW [])).
Proof.
  split; [reflexivity|].
  apply (proj1 (proj2 (C1_updateBlink_toggles_iff_interval_elapsed
                         (mkPlayerLed 16 BLINK_2HZ 1000 LOW) 1800
                         (mkBoard 1800 [] LOW []) eq_refl))).
  vm_compute. discriminate.
Defined.

(** C8, as stated, fails: with the timer one millisecond ahead of [now]
    the plain difference [now - lastToggleMs] is [-1], strictly below the
    period, and the call is no no-op: it inverts the level and writes
    it.  The call is one [loop] makes: after [setup], in a pass that finds
    ['1'] while [millis()] reads 1000 at the head of [loop] and 1001 inside
    [applyModeImmediate]. *)
Lemma C8_counterexample :
  let pl := mkPlayerLed P1_LED_PIN BLINK_1HZ 1001 LOW in
  let b := mkBoard 1001 [] LOW [] in
  is_blink (mode pl) = true /\
  1000 - lastToggleMs pl < modeToInterval (mode pl) /\
  ~ idles pl b (updateBlink pl 1000 b) /\
  updateBlink pl 1000 b =
  mkRes (mkPlayerLed P1_LED_PIN BLINK_1HZ 1000 HIGH) b
        [EvDigitalWrite P1_LED_PIN HIGH] /\
  (let g := val (setup initial (mkBoard 0 [] LOW [])) in
   let b1 := mkBoard 1000 [0; 1] LOW ["1"%char] in
   val (millis b1) = 1000 /\
   val (set_mode (P1 g) BLINK_1HZ (board (millis b1))) = pl).
Proof.
  cbv zeta. split; [reflexivity|]. split; [simpl; lia|].
  split; [|split; [reflexivity|split; reflexivity]].
  unfold idles. intros H. discriminate H.
Qed.

(** C8, amended.  For a player in a blink mode, a call of [updateBlink]
    whose [now] has [(now - lastToggleMs) mod 2^32] below the period, the
    difference the code takes on [unsigned long], changes no field and
    writes nothing, and so does any number of such calls in a row: the
    player is the one before the first call.  Whenever the timer is not
    ahead of [now] the condition is the plain [now - lastToggleMs < p]. *)
Theorem C8_updateBlink_below_threshold_is_noop :
  forall (pl : PlayerLed) (b : Board),
    is_blink (mode pl) = true ->
    let p := modeToInterval (mode pl) in
    let T := lastToggleMs pl in
    (forall now, (now - T) mod 2 ^ 32 < p -> idles pl b (updateBlink pl now b)) /\
    (forall nows,
        Forall (fun now => (now - T) mod 2 ^ 32 < p) nows ->
        idles pl b (ticks pl nows b)) /\
    (forall nows,
        Forall (fun now => T <= now < 2 ^ 32 /\ now - T < p) nows ->
        0 <= T ->
        idles pl b (ticks pl nows b)).
Proof.
  intros pl b _ p T. split; [|split].
  - intros now H. apply updateBlink_early. rewrite ulong_sub_mod. exact H.
  - intros nows H. apply ticks_early.
    eapply Forall_impl; [|exact H].
    intros now Hn. rewrite ulong_sub_mod. exact Hn.
  - intros nows H HT. apply ticks_early.
    eapply Forall_impl; [|exact H].
    intros now [Hr Hn]. cbv beta. rewrite ulong_sub_mod.
    fold T p. rewrite Z.mod_small by lia. exact Hn.
Qed.

Lemma C8_witness :
  is_blink (mode (mkPlayerLed 17 BLINK_4HZ 2000 HIGH)) = true /\
  Forall (fun now => (now - 2000) mod 2 ^ 32 < 125) [2000; 2050; 2124; 2001] /\
  idles (mkPlayerLed 17 BLINK_4HZ 2000 HIGH) (mkBoard 2100 [] LOW [])
        (ticks (mkPlayerLed 17 BLINK_4HZ 2000 HIGH) [2000; 2050; 2124; 2001]
               (mkBoard 2100 [] LOW [])).
Proof.
  assert (H : Forall (fun now => (now - 2000) mod 2 ^ 32 < 125)
                     [2000; 2050; 2124; 2001])
    by (repeat constructor).
  split; [reflexivity|]. split; [exact H|].
  exact (proj1 (proj2 (C8_updateBlink_below_threshold_is_noop
                         (mkPlayerLed 17 BLINK_4HZ 2000 HIGH)
                         (mkBoard 2100 [] LOW []) eq_refl))
               [2000; 2050; 2124; 2001] H).
Defined.

(** ** [applyModeImmediate] *)

Lemma set_mode_off (pl : PlayerLed) (b : Board) :
  set_mode pl OFF_MODE b =
  mkRes (mkPlayerLed (pin pl) OFF_MODE (val (millis b)) LOW)
        (board (millis b)) [EvDigitalWrite (pin pl) LOW].
Proof. destruct b as [c [|d ds] lv q]; reflexivity. Qed.

Lemma set_mode_solid (pl : PlayerLed) (b : Board) :
  set_mode pl SOLID_ON b =
  mkRes (mkPlayerLed (pin pl) SOLID_ON (val (millis b)) HIGH)
        (board (millis b)) [EvDigitalWrite (pin pl) HIGH].
Proof. destruct b as [c [|d ds] lv q]; reflexivity. Qed.

Lemma set_mode_blink (pl : PlayerLed) (m : LedMode) (b : Board) :
  is_blink m = true ->
  set_mode pl m b =
  mkRes (mkPlayerLed (pin pl) m (val (millis b)) (currentLevel pl))
        (board (millis b)) [].
Proof.
  destruct b as [c [|d ds] lv q];
    destruct m; intros H; try discriminate; reflexivity.
Qed.

Lemma millis_range (b : Board) :
  0 <= clock b <= ULONG_MAX -> 0 <= val (millis b) <= ULONG_MAX.
Proof.
  unfold millis. destruct (elapsed b); simpl; [tauto|].
  intros _. apply ulong_range.
Qed.

Lemma settled_initial : settled (P1 initial) /\ settled (P2 initial).
Proof. split; reflexivity. Qed.

Lemma settled_set_mode (pl : PlayerLed) (m : LedMode) (b : Board) :
  settled (val (set_mode pl m b)).
Proof.
  destruct m;
    [rewrite set_mode_off|rewrite set_mode_solid|rewrite set_mode_blink by reflexivity..];
    unfold settled; simpl; auto.
Qed.

Lemma settled_applyModeImmediate (pl : PlayerLed) (b : Board) :
  settled (val (applyModeImmediate pl b)).
Proof.
  destruct pl as [pn m t lv].
  exact (settled_set_mode (mkPlayerLed pn m t lv) m b).
Qed.

Lemma settled_updateBlink (pl : PlayerLed) (now : Z) (b : Board) :
  settled pl -> settled (val (updateBlink pl now b)).
Proof.
  intros H. destruct (is_blink (mode pl)) eqn:Hb.
  - destruct (Z.le_gt_cases (modeToInterval (mode pl))
                            (ulong_sub now (lastToggleMs pl))) as [Hd|Hd].
    + rewrite (updateBlink_due pl now b Hb Hd). unfold settled. simpl.
      destruct (mode pl); try discriminate; exact I.
    + rewrite (updateBlink_early pl now b Hd). exact H.
  - rewrite (updateBlink_static pl now b Hb). exact H.
Qed.

(** Until the first toggle a blinking player keeps its level, and the first
    toggle writes the inverted level. *)
Lemma ticks_first_write (pl : PlayerLed) (nows : list Z) (b : Board) :
  is_blink (mode pl) = true ->
  ticks pl nows b = mkRes pl b [] \/
  exists rest,
    out (ticks pl nows b) =
    EvDigitalWrite (pin pl) (toggled (currentLevel pl)) :: rest.
Proof.
  intros Hb. induction nows as [|now rest IH]; [left; reflexivity|].
  simpl. unfold bind.
  destruct (Z.le_gt_cases (modeToInterval (mode pl))
                          (ulong_sub now (lastToggleMs pl))) as [Hd|Hd].
  - right. rewrite (updateBlink_due pl now b Hb Hd). simpl. eauto.
  - rewrite (updateBlink_early pl now b Hd). simpl.
    destruct IH as [IH|[tl IH]].
    + left. rewrite IH. reflexivity.
    + right. exists tl. exact IH.
Qed.

(** ** Claims on mode changes *)

(** C4. [set_mode] to [OFF_MODE] sets the level to [LOW] and writes [LOW] to
    the pin at once; [set_mode] to [SOLID_ON] sets it to [HIGH] and writes
    [HIGH].  After either, any sequence of [updateBlink] calls, whatever the
    clock values, changes no field and writes nothing: the level stays as
    set until the next mode change. *)
Theorem C4_static_modes_set_level_and_hold :
  forall (pl : PlayerLed) (b : Board),
    let off := set_mode pl OFF_MODE b in
    let solid := set_mode pl SOLID_ON b in
    (mode (val off) = OFF_MODE /\
     currentLevel (val off) = LOW /\
     out off = [EvDigitalWrite (pin pl) LOW]) /\
    (mode (val solid) = SOLID_ON /\
     currentLevel (val solid) = HIGH /\
     out solid = [EvDigitalWrite (pin pl) HIGH]) /\
    (forall (nows : list Z) (b' : Board),
        idles (val off) b' (ticks (val off) nows b') /\
        idles (val solid) b' (ticks (val solid) nows b')).
Proof.
  intros pl b off solid.
  subst off solid. rewrite set_mode_off, set_mode_solid. simpl.
  split; [repeat split|]. split; [repeat split|].
  intros nows b'. split; apply ticks_static; reflexivity.
Qed.

(** A [set_mode] to a blink mode, performed when [millis()] reads [T],
    leaves the level alone and writes nothing; it stores [T] in
    [lastToggleMs], whatever the previous mode, level and timer were.  From
    there calls of [updateBlink] with clock values [T], ..., [T + p - 1] (in
    any number and order) do nothing, and the call at [T + p] toggles.
    Clock values are taken modulo [2^32].  This is about calls whose clock
    value is not before [T]; [loop] can pass an earlier one. *)
Lemma set_mode_blink_restarts_period :
  forall (pl : PlayerLed) (m : LedMode) (b : Board),
    is_blink m = true ->
    let T := val (millis b) in
    let p := modeToInterval m in
    let r := set_mode pl m b in
    (currentLevel (val r) = currentLevel pl /\ out r = []) /\
    (mode (val r) = m /\ lastToggleMs (val r) = T) /\
    (forall b', idles (val r) b' (updateBlink (val r) T b')) /\
    (forall b', idles (val r) b' (updateBlink (val r) (ulong (T + (p - 1))) b')) /\
    (forall nows b',
        Forall (fun now => exists k, 0 <= k < p /\ now = ulong (T + k)) nows ->
        idles (val r) b' (ticks (val r) nows b')) /\
    (forall b', flips (val r) (ulong (T + p)) b'
                      (updateBlink (val r) (ulong (T + p)) b')).
Proof.
  intros pl m b Hb T p r.
  pose proof (interval_blink m Hb) as Hp. fold p in Hp.
  subst r. rewrite (set_mode_blink pl m b Hb). simpl. fold T.
  assert (Hin : forall k b', 0 <= k < p ->
            updateBlink (mkPlayerLed (pin pl) m T (currentLevel pl))
                        (ulong (T + k)) b' =
            mkRes (mkPlayerLed (pin pl) m T (currentLevel pl)) b' []).
  { intros k b' Hk. apply updateBlink_early. simpl.
    rewrite ulong_sub_after; unfold ULONG_MAX; fold p; lia. }
  split; [split; reflexivity|]. split; [split; reflexivity|].
  split; [|split; [|split]].
  - intros b'. apply updateBlink_early. simpl.
    unfold ulong_sub. rewrite Z.sub_diag. unfold ulong. rewrite Z.mod_0_l.
    + fold p. lia.
    + unfold ULONG_MAX. lia.
  - intros b'. apply Hin. lia.
  - intros nows b' H. apply ticks_early. simpl.
    eapply Forall_impl; [|exact H]. simpl.
    intros now (k & Hk & ->).
    rewrite ulong_sub_after; unfold ULONG_MAX; fold p; lia.
  - intros b'. rewrite updateBlink_due; simpl; [repeat split|exact Hb|].
    rewrite ulong_sub_after; unfold ULONG_MAX; fold p; lia.
Qed.

(** ** The board through the sketch *)

Lemma clock_only_refl (b : Board) : clock_only b b.
Proof. split; reflexivity. Qed.

Lemma clock_only_trans (b1 b2 b3 : Board) :
  clock_only b1 b2 -> clock_only b2 b3 -> clock_only b1 b3.
Proof. intros [H1 H2] [H3 H4]. split; congruence. Qed.

Lemma millis_out (b : Board) : out (millis b) = [].
Proof. unfold millis. destruct (elapsed b); reflexivity. Qed.

Lemma millis_board (b : Board) : clock_only b (board (millis b)).
Proof. unfold millis. destruct (elapsed b); split; reflexivity. Qed.

Lemma updateBlink_board (pl : PlayerLed) (now : Z) (b : Board) :
  board (updateBlink pl now b) = b.
Proof.
  unfold updateBlink.
  destruct (mode pl); try reflexivity;
    destruct (_ <=? _); reflexivity.
Qed.

(** The result of [updateBlink] does not depend on the board. *)
Lemma updateBlink_any_board (pl : PlayerLed) (now : Z) (b b' : Board) :
  val (updateBlink pl now b) = val (updateBlink pl now b') /\
  out (updateBlink pl now b) = out (updateBlink pl now b').
Proof.
  unfold updateBlink.
  destruct (mode pl); try (split; reflexivity);
    destruct (_ <=? _); split; reflexivity.
Qed.

Lemma updateBlink_frame (pl : PlayerLed) (now : Z) (b : Board) :
  pin (val (updateBlink pl now b)) = pin pl /\
  mode (val (updateBlink pl now b)) = mode pl.
Proof.
  unfold updateBlink.
  destruct (mode pl) eqn:E; try (split; [reflexivity|exact E]);
    destruct (_ <=? _); split; try reflexivity; exact E.
Qed.

Lemma updateBlink_out (pl : PlayerLed) (now : Z) (b : Board) :
  out (updateBlink pl now b) = [] \/
  exists lv, out (updateBlink pl now b) = [EvDigitalWrite (pin pl) lv].
Proof.
  unfold updateBlink.
  destruct (mode pl); try (left; reflexivity);
    destruct (_ <=? _); try (left; reflexivity); right; eexists; reflexivity.
Qed.

Lemma set_mode_val (pl : PlayerLed) (m : LedMode) (b : Board) :
  val (set_mode pl m b) =
  mkPlayerLed (pin pl) m (val (millis b)) (level_after m (currentLevel pl)).
Proof.
  destruct m;
    [rewrite set_mode_off|rewrite set_mode_solid|
     rewrite set_mode_blink by reflexivity..]; reflexivity.
Qed.

Lemma set_mode_board (pl : PlayerLed) (m : LedMode) (b : Board) :
  board (set_mode pl m b) = board (millis b).
Proof.
  destruct m;
    [rewrite set_mode_off|rewrite set_mode_solid|
     rewrite set_mode_blink by reflexivity..]; reflexivity.
Qed.

Lemma set_mode_out (pl : PlayerLed) (m : LedMode) (b : Board) :
  out (set_mode pl m b) =
  match m with
  | OFF_MODE => [EvDigitalWrite (pin pl) LOW]
  | SOLID_ON => [EvDigitalWrite (pin pl) HIGH]
  | _ => []
  end.
Proof.
  destruct m;
    [rewrite set_mode_off|rewrite set_mode_solid|
     rewrite set_mode_blink by reflexivity..]; reflexivity.
Qed.

(** ** The button block of [loop] *)

Lemma press_edge_iff (lastSt state : Level) :
  press_edge lastSt state = true <-> lastSt = LOW /\ state = HIGH.
Proof.
  destruct lastSt, state; simpl; split;
    (intros [? ?] || intros ?); try discriminate; auto.
Qed.

Lemma loop_button_eq (g : Globals) (b : Board) :
  loop_button g b =
  mkRes (with_lastState g (button b))
        (if press_edge (lastState g) (button b)
         then with_clock b (ulong (clock b + 50)) else b)
        (EvDigitalWrite BUTTON_LED (button b) ::
         if press_edge (lastState g) (button b)
         then [EvDigitalWrite PI_LED HIGH;
               EvKeyboardPress " "%char;
               EvKeyboardReleaseAll]
         else [EvDigitalWrite PI_LED LOW]).
Proof.
  destruct g as [p1 p2 ls], b as [c el bt q].
  destruct bt, ls; reflexivity.
Qed.

Lemma loop_button_board (g : Globals) (b : Board) :
  clock_only b (board (loop_button g b)).
Proof.
  rewrite loop_button_eq. simpl.
  destruct (press_edge _ _); split; reflexivity.
Qed.

(** ** The serial block of [loop] *)

Lemma loop_serial_empty (g : Globals) (b : Board) :
  rx b = [] -> loop_serial g b = mkRes g b [].
Proof.
  intros H. unfold loop_serial, bind, Serial_available. simpl.
  rewrite H. reflexivity.
Qed.

Lemma loop_serial_byte (g : Globals) (b : Board) (c : ascii) (cs : list ascii) :
  rx b = c :: cs -> loop_serial g b = loop_switch c g (with_rx b cs).
Proof.
  destruct b as [cl el bt q]. simpl. intros ->.
  change (with_rx (mkBoard cl el bt (c :: cs)) cs) with (mkBoard cl el bt cs).
  assert (Hn : (0 <? Z.of_nat (length (c :: cs))) = true)
    by (apply Z.ltb_lt; simpl length; lia).
  unfold loop_serial, bind, Serial_available, Serial_read.
  cbv beta iota zeta delta [val board out rx with_rx clock elapsed button].
  rewrite Hn.
  destruct (loop_switch c g (mkBoard cl el bt cs)); reflexivity.
Qed.

(** ** The switch of [loop] against the command table *)

(** The switch does what the table says: it runs the mode changes the
    table lists for the byte. *)
Lemma loop_switch_interpret (c : ascii) (g : Globals) (b : Board) :
  loop_switch c g b = apply_commands (interpret c) g b.
Proof.
  destruct c as [[] [] [] [] [] [] [] []]; try reflexivity;
    destruct g as [p1 p2 ls], b as [cl [|d1 [|d2 el]] bt q];
    destruct p1 as [n1 m1 t1 l1], p2 as [n2 m2 t2 l2]; reflexivity.
Qed.

Lemma interpret_unknown (c : ascii) :
  ~ In c command_bytes -> interpret c = [].
Proof.
  intros H.
  destruct c as [[] [] [] [] [] [] [] []]; try reflexivity;
    exfalso; apply H; simpl; tauto.
Qed.

Lemma interpret_known (c : ascii) :
  In c command_bytes -> interpret c <> [].
Proof.
  simpl. intros H.
  repeat (destruct H as [<-|H]; [discriminate|]). destruct H.
Qed.

Lemma interpret_nodup (c : ascii) : NoDup (map fst (interpret c)).
Proof.
  destruct c as [[] [] [] [] [] [] [] []]; simpl;
    repeat constructor; simpl; intuition discriminate.
Qed.

Lemma led_with_led_same (p : Player) (g : Globals) (pl : PlayerLed) :
  led p (with_led p g pl) = pl.
Proof. destruct p; reflexivity. Qed.

Lemma led_with_led_other (p q : Player) (g : Globals) (pl : PlayerLed) :
  p <> q -> led p (with_led q g pl) = led p g.
Proof. destruct p, q; intros H; try reflexivity; congruence. Qed.

Lemma apply_commands_cons (q : Player) (m : LedMode)
      (rest : list (Player * LedMode)) (g : Globals) (b : Board) :
  let r := set_mode (led q g) m b in
  let r' := apply_commands rest (with_led q g (val r)) (board r) in
  apply_commands ((q, m) :: rest) g b =
  mkRes (val r') (board r') (out r ++ out r').
Proof. reflexivity. Qed.

Lemma apply_commands_board (cmds : list (Player * LedMode)) :
  forall (g : Globals) (b : Board),
    clock_only b (board (apply_commands cmds g b)).
Proof.
  induction cmds as [|[q m] rest IH]; intros g b; [apply clock_only_refl|].
  rewrite apply_commands_cons. cbv zeta. cbn [board].
  eapply clock_only_trans; [|apply IH].
  rewrite set_mode_board. apply millis_board.
Qed.

Lemma apply_commands_lastState (cmds : list (Player * LedMode)) :
  forall (g : Globals) (b : Board),
    lastState (val (apply_commands cmds g b)) = lastState g.
Proof.
  induction cmds as [|[q m] rest IH]; intros g b; [reflexivity|].
  rewrite apply_commands_cons. cbv zeta. cbn [val].
  rewrite IH. destruct q; reflexivity.
Qed.

Lemma apply_commands_pin (cmds : list (Player * LedMode)) :
  forall (g : Globals) (b : Board) (p : Player),
    pin (led p (val (apply_commands cmds g b))) = pin (led p g).
Proof.
  induction cmds as [|[q m] rest IH]; intros g b p; [reflexivity|].
  rewrite apply_commands_cons. cbv zeta. cbn [val].
  rewrite IH, set_mode_val. destruct p, q; reflexivity.
Qed.

Lemma apply_commands_other (cmds : list (Player * LedMode)) :
  forall (g : Globals) (b : Board) (p : Player),
    ~ In p (map fst cmds) ->
    led p (val (apply_commands cmds g b)) = led p g.
Proof.
  induction cmds as [|[q m] rest IH]; intros g b p H; [reflexivity|].
  simpl in H.
  rewrite apply_commands_cons. cbv zeta. cbn [val].
  rewrite IH by tauto.
  apply led_with_led_other. intros ->. tauto.
Qed.

Lemma apply_commands_target (cmds : list (Player * LedMode)) :
  forall (g : Globals) (b : Board) (p : Player) (m : LedMode),
    NoDup (map fst cmds) -> In (p, m) cmds ->
    mode (led p (val (apply_commands cmds g b))) = m /\
    currentLevel (led p (val (apply_commands cmds g b))) =
    level_after m (currentLevel (led p g)).
Proof.
  induction cmds as [|[q m'] rest IH]; intros g b p m Hnd Hin; [destruct Hin|].
  simpl in Hnd. inversion Hnd as [|? ? Hq Hrest]; subst.
  rewrite apply_commands_cons. cbv zeta. cbn [val].
  destruct Hin as [E|Hin].
  - injection E as -> ->.
    rewrite apply_commands_other by exact Hq.
    rewrite led_with_led_same, set_mode_val. split; reflexivity.
  - assert (Hpq : p <> q).
    { intros ->. apply Hq. apply (in_map fst) in Hin. exact Hin. }
    destruct (IH (with_led q g (val (set_mode (led q g) m' b)))
                 (board (set_mode (led q g) m' b)) p m Hrest Hin) as [H1 H2].
    rewrite H1, H2, led_with_led_other by exact Hpq. split; reflexivity.
Qed.

Lemma apply_commands_out (cmds : list (Player * LedMode)) :
  forall (g : Globals) (b : Board),
    Forall (player_write g) (out (apply_commands cmds g b)).
Proof.
  induction cmds as [|[q m] rest IH]; intros g b; [constructor|].
  rewrite apply_commands_cons. cbv zeta. cbn [out].
  apply Forall_app. split.
  - rewrite set_mode_out.
    destruct m; repeat constructor; eexists; destruct q; simpl; eauto.
  - eapply Forall_impl; [|apply IH].
    intros e [lv H]. exists lv.
    destruct q; cbn [with_led with_P1 with_P2 P1 P2] in H;
      rewrite set_mode_val in H; exact H.
Qed.

Lemma apply_commands_modes (cmds : list (Player * LedMode)) :
  forall (g : Globals) (b : Board),
    modes (val (apply_commands cmds g b)) =
    fold_left (fun ms cmd =>
                 match cmd with
                 | (PLAYER1, m) => (m, snd ms)
                 | (PLAYER2, m) => (fst ms, m)
                 end) cmds (modes g).
Proof.
  induction cmds as [|[q m] rest IH]; intros g b; [reflexivity|].
  rewrite apply_commands_cons. cbv zeta. cbn [val fold_left].
  rewrite IH, set_mode_val. destruct q; reflexivity.
Qed.

(** ** One pass of [loop] *)

Lemma loop_eq (g : Globals) (b : Board) :
  let r0 := millis b in
  let r1 := loop_button g (board r0) in
  let r2 := loop_serial (val r1) (board r1) in
  let r3 := updateBlink (P1 (val r2)) (val r0) (board r2) in
  let r4 := updateBlink (P2 (val r2)) (val r0) (board r3) in
  loop g b =
  mkRes (with_P2 (with_P1 (val r2) (val r3)) (val r4))
        (with_clock (board r4) (ulong (clock (board r4) + 1)))
        (out r1 ++ out r2 ++ out r3 ++ out r4).
Proof.
  cbv zeta. unfold loop, bind, delay, ret. cbn [val board out].
  rewrite millis_out, !app_nil_r. reflexivity.
Qed.

(** The serial block in terms of the command table. *)
Lemma loop_serial_interpret (g : Globals) (b : Board) :
  loop_serial g b =
  match rx b with
  | [] => mkRes g b []
  | c :: cs => apply_commands (interpret c) g (with_rx b cs)
  end.
Proof.
  destruct (rx b) as [|c cs] eqn:E.
  - apply loop_serial_empty. exact E.
  - rewrite (loop_serial_byte g b c cs E). apply loop_switch_interpret.
Qed.

Lemma loop_serial_rx (g : Globals) (b : Board) :
  rx (board (loop_serial g b)) = tl (rx b) /\
  button (board (loop_serial g b)) = button b.
Proof.
  rewrite loop_serial_interpret. destruct (rx b) as [|c cs] eqn:E.
  - simpl. rewrite E. split; reflexivity.
  - destruct (apply_commands_board (interpret c) g (with_rx b cs)) as [H1 H2].
    rewrite H1, H2. split; reflexivity.
Qed.

Lemma loop_serial_lastState (g : Globals) (b : Board) :
  lastState (val (loop_serial g b)) = lastState g.
Proof.
  rewrite loop_serial_interpret. destruct (rx b); [reflexivity|].
  apply apply_commands_lastState.
Qed.

Lemma loop_serial_pin (g : Globals) (b : Board) (p : Player) :
  pin (led p (val (loop_serial g b))) = pin (led p g).
Proof.
  rewrite loop_serial_interpret. destruct (rx b); [reflexivity|].
  apply apply_commands_pin.
Qed.

Lemma loop_serial_out (g : Globals) (b : Board) :
  Forall (player_write g) (out (loop_serial g b)).
Proof.
  rewrite loop_serial_interpret. destruct (rx b); [constructor|].
  apply apply_commands_out.
Qed.

Lemma loop_serial_modes (g : Globals) (b : Board) :
  modes (val (loop_serial g b)) =
  match rx b with
  | [] => modes g
  | c :: _ => command_modes (modes g) c
  end.
Proof.
  rewrite loop_serial_interpret. destruct (rx b); [reflexivity|].
  apply apply_commands_modes.
Qed.

(** What one pass does to the receive buffer and the button line: the
    oldest byte, if any, is gone, the rest is as it was. *)
Lemma loop_board (g : Globals) (b : Board) :
  rx (board (loop g b)) = tl (rx b) /\
  button (board (loop g b)) = button b.
Proof.
  rewrite loop_eq. cbn [board with_clock rx button].
  rewrite !updateBlink_board.
  destruct (loop_serial_rx (val (loop_button g (board (millis b))))
                           (board (loop_button g (board (millis b)))))
    as [H1 H2].
  destruct (loop_button_board g (board (millis b))) as [H3 H4].
  destruct (millis_board b) as [H5 H6].
  rewrite H1, H2, H3, H4, H5, H6. split; reflexivity.
Qed.

Lemma loop_lastState (g : Globals) (b : Board) :
  lastState (val (loop g b)) = button b.
Proof.
  rewrite loop_eq. cbn [val with_P1 with_P2 lastState].
  rewrite loop_serial_lastState, loop_button_eq. cbn [val with_lastState lastState].
  apply millis_board.
Qed.

Lemma loop_modes (g : Globals) (b : Board) :
  modes (val (loop g b)) =
  match rx b with
  | [] => modes g
  | c :: _ => command_modes (modes g) c
  end.
Proof.
  rewrite loop_eq. unfold modes at 1. cbn [val with_P1 with_P2 P1 P2].
  rewrite (proj2 (updateBlink_frame _ _ _)), (proj2 (updateBlink_frame _ _ _)).
  change (modes (val (loop_serial (val (loop_button g (board (millis b))))
                                  (board (loop_button g (board (millis b)))))) =
          match rx b with [] => modes g | c :: _ => command_modes (modes g) c end).
  rewrite loop_serial_modes.
  destruct (loop_button_board g (board (millis b))) as [_ H].
  destruct (millis_board b) as [_ H'].
  rewrite H, H', loop_button_eq. reflexivity.
Qed.

Lemma loop_pin (g : Globals) (b : Board) (p : Player) :
  pin (led p (val (loop g b))) = pin (led p g).
Proof.
  rewrite loop_eq.
  destruct p; cbn [val led with_P1 with_P2 P1 P2];
    rewrite (proj1 (updateBlink_frame _ _ _)).
  - rewrite (loop_serial_pin _ _ PLAYER1), loop_button_eq. reflexivity.
  - rewrite (loop_serial_pin _ _ PLAYER2), loop_button_eq. reflexivity.
Qed.

Lemma loop_wired (g : Globals) (b : Board) :
  wired g -> wired (val (loop g b)).
Proof.
  intros [H1 H2]. split.
  - exact (eq_trans (loop_pin g b PLAYER1) H1).
  - exact (eq_trans (loop_pin g b PLAYER2) H2).
Qed.

(** The output of one pass: the events of the button block, then writes to
    the player pins only. *)
Lemma loop_out (g : Globals) (b : Board) :
  exists evs,
    out (loop g b) =
    (EvDigitalWrite BUTTON_LED (button b) ::
     if press_edge (lastState g) (button b)
     then [EvDigitalWrite PI_LED HIGH;
           EvKeyboardPress " "%char;
           EvKeyboardReleaseAll]
     else [EvDigitalWrite PI_LED LOW]) ++ evs /\
    Forall (player_write g) evs.
Proof.
  rewrite loop_eq. cbn [out].
  set (r1 := loop_button g (board (millis b))).
  set (r2 := loop_serial (val r1) (board r1)).
  exists (out r2 ++ out (updateBlink (P1 (val r2)) (val (millis b)) (board r2))
          ++ out (updateBlink (P2 (val r2)) (val (millis b))
                    (board (updateBlink (P1 (val r2)) (val (millis b)) (board r2))))).
  split.
  - subst r1. rewrite loop_button_eq at 1. cbn [out].
    destruct (millis_board b) as [-> _]. reflexivity.
  - assert (Hg : forall e, player_write (val r1) e -> player_write g e).
    { subst r1. rewrite loop_button_eq. intros e H. exact H. }
    assert (Hg2 : forall e, player_write (val r2) e -> player_write g e).
    { intros e [lv H]. apply Hg. exists lv. subst r2.
      rewrite (loop_serial_pin _ _ PLAYER1) in H.
      rewrite (loop_serial_pin _ _ PLAYER2) in H. exact H. }
    apply Forall_app. split; [|apply Forall_app; split].
    + eapply Forall_impl; [exact Hg|]. apply loop_serial_out.
    + destruct (updateBlink_out (P1 (val r2)) (val (millis b)) (board r2))
        as [->|[lv ->]]; repeat constructor.
      apply Hg2. exists lv. left. reflexivity.
    + destruct (updateBlink_out (P2 (val r2)) (val (millis b))
                  (board (updateBlink (P1 (val r2)) (val (millis b)) (board r2))))
        as [->|[lv ->]]; repeat constructor.
      apply Hg2. exists lv. right. reflexivity.
Qed.

(** ** Projections of the output *)

Lemma pin_writes_app (q : Z) (l1 l2 : list Event) :
  pin_writes q (l1 ++ l2) = pin_writes q l1 ++ pin_writes q l2.
Proof.
  induction l1 as [|e l1 IH]; [reflexivity|].
  destruct e; simpl; try exact IH.
  destruct (_ =? _); simpl; rewrite IH; reflexivity.
Qed.

Lemma key_presses_app (l1 l2 : list Event) :
  key_presses (l1 ++ l2) = key_presses l1 ++ key_presses l2.
Proof.
  induction l1 as [|e l1 IH]; [reflexivity|].
  destruct e; simpl; rewrite ?IH; reflexivity.
Qed.

Lemma player_writes_no_key (g : Globals) (evs : list Event) :
  Forall (player_write g) evs -> key_presses evs = [].
Proof.
  induction 1 as [|e evs [lv [->| ->]] _ IH]; simpl; auto.
Qed.

Lemma player_writes_other_pin (g : Globals) (q : Z) (evs : list Event) :
  wired g -> q <> P1_LED_PIN -> q <> P2_LED_PIN ->
  Forall (player_write g) evs -> pin_writes q evs = [].
Proof.
  intros [H1 H2] Hq1 Hq2.
  induction 1 as [|e evs [lv [->| ->]] _ IH]; simpl; auto.
  - rewrite H1. destruct (Z.eqb_spec P1_LED_PIN q); congruence.
  - rewrite H2. destruct (Z.eqb_spec P2_LED_PIN q); congruence.
Qed.

(** What one pass shows on the button LED, on the built-in LED and on the
    keyboard. *)
Lemma loop_button_outputs (g : Globals) (b : Board) :
  key_presses (out (loop g b)) =
  (if press_edge (lastState g) (button b) then [" "%char] else []) /\
  (wired g ->
   pin_writes BUTTON_LED (out (loop g b)) = [button b] /\
   pin_writes PI_LED (out (loop g b)) =
   [edge_level (press_edge (lastState g) (button b))]).
Proof.
  destruct (loop_out g b) as (evs & -> & Hevs).
  split; [|intros Hw; split].
  - rewrite key_presses_app, (player_writes_no_key g evs Hevs).
    destruct (press_edge _ _); reflexivity.
  - rewrite pin_writes_app.
    rewrite (player_writes_other_pin g BUTTON_LED evs Hw) by
        (exact Hevs || discriminate).
    destruct (press_edge _ _); reflexivity.
  - rewrite pin_writes_app.
    rewrite (player_writes_other_pin g PI_LED evs Hw) by
        (exact Hevs || discriminate).
    destruct (press_edge _ _); reflexivity.
Qed.

(** ** Successive passes *)

Lemma loops_cons (raw : Level) (rest : list Level) (g : Globals) (b : Board) :
  let r := loop g (with_button b raw) in
  let r' := loops rest (val r) (board r) in
  loops (raw :: rest) g b = mkRes (val r') (board r') (out r ++ out r').
Proof. reflexivity. Qed.

Lemma loops_rx (raws : list Level) :
  forall (g : Globals) (b : Board),
    rx (board (loops raws g b)) = skipn (length raws) (rx b).
Proof.
  induction raws as [|raw rest IH]; intros g b; [reflexivity|].
  rewrite loops_cons. cbv zeta. cbn [board length].
  rewrite IH, (proj1 (loop_board _ _)). cbn [with_button rx].
  destruct (rx b); [destruct (length rest)|]; reflexivity.
Qed.

Lemma loops_modes (raws : list Level) :
  forall (g : Globals) (b : Board),
    modes (val (loops raws g b)) =
    fold_left command_modes (firstn (length raws) (rx b)) (modes g).
Proof.
  induction raws as [|raw rest IH]; intros g b; [reflexivity|].
  rewrite loops_cons. cbv zeta. cbn [val length].
  rewrite IH, loop_modes, (proj1 (loop_board _ _)). cbn [with_button rx].
  destruct (rx b); [rewrite firstn_nil|]; reflexivity.
Qed.

Lemma loops_wired (raws : list Level) :
  forall (g : Globals) (b : Board),
    wired g -> wired (val (loops raws g b)).
Proof.
  induction raws as [|raw rest IH]; intros g b H; [exact H|].
  rewrite loops_cons. cbv zeta. cbn [val].
  apply IH. apply loop_wired. exact H.
Qed.

Lemma loops_outputs (raws : list Level) :
  forall (g : Globals) (b : Board),
    key_presses (out (loops raws g b)) =
    map (fun _ => " "%char) (filter id (press_edges (lastState g) raws)) /\
    (wired g ->
     pin_writes BUTTON_LED (out (loops raws g b)) = raws /\
     pin_writes PI_LED (out (loops raws g b)) =
     map edge_level (press_edges (lastState g) raws)).
Proof.
  induction raws as [|raw rest IH]; intros g b;
    [split; [|intros _; split]; reflexivity|].
  rewrite loops_cons. cbv zeta. cbn [out press_edges].
  destruct (IH (val (loop g (with_button b raw)))
               (board (loop g (with_button b raw)))) as [IHk IHw].
  destruct (loop_button_outputs g (with_button b raw)) as [Hk Hw].
  rewrite loop_lastState in IHk, IHw. cbn [with_button button] in *.
  split.
  - rewrite key_presses_app, IHk, Hk.
    destruct (press_edge _ _); reflexivity.
  - intros W. destruct (Hw W) as [H1 H2].
    destruct (IHw (loop_wired _ _ W)) as [H3 H4].
    rewrite !pin_writes_app, H1, H2, H3, H4. split; reflexivity.
Qed.

(** Starting from a stored sample [HIGH], an edge test that succeeds has a
    [LOW] sample before it. *)
Lemma press_edges_needs_low (raws : list Level) (i : nat) :
  nth i (press_edges HIGH raws) false = true ->
  exists j, (j < i)%nat /\ nth j raws HIGH = LOW.
Proof.
  revert i. induction raws as [|raw rest IH]; intros i H.
  - destruct i; discriminate.
  - destruct i as [|i]; simpl in H.
    + destruct raw; discriminate.
    + destruct raw.
      * exists 0%nat. split; [lia|reflexivity].
      * destruct (IH i H) as (j & Hj & Hn).
        exists (S j). split; [lia|exact Hn].
Qed.

(** ** Claims on the button block *)

(** C5. Whatever the stored sample and the raw level, a pass writes the raw
    level itself to the button LED, and its edge test succeeds exactly when
    the stored sample is [LOW] and the raw level is [HIGH]; the built-in
    LED and the key press follow the edge test, and the raw level becomes
    the stored sample.  Hence passes that read [LOW, LOW, HIGH, HIGH, LOW]
    detect [false, false, true, false, false] and show
    [LOW, LOW, HIGH, HIGH, LOW] on the button LED. *)
Theorem C5_button_mirror_and_rising_edge :
  (forall lastSt raw : Level,
      press_edge lastSt raw = true <-> lastSt = LOW /\ raw = HIGH) /\
  (forall (g : Globals) (b : Board),
      wired g ->
      pin_writes BUTTON_LED (out (loop g b)) = [button b] /\
      pin_writes PI_LED (out (loop g b)) =
      [edge_level (press_edge (lastState g) (button b))] /\
      key_presses (out (loop g b)) =
      (if press_edge (lastState g) (button b) then [" "%char] else []) /\
      lastState (val (loop g b)) = button b) /\
  (forall (g : Globals) (b : Board),
      wired g ->
      let raws := [LOW; LOW; HIGH; HIGH; LOW] in
      let r := loops raws g b in
      press_edges (lastState g) raws = [false; false; true; false; false] /\
      pin_writes BUTTON_LED (out r) = [LOW; LOW; HIGH; HIGH; LOW] /\
      pin_writes PI_LED (out r) = [LOW; LOW; HIGH; LOW; LOW] /\
      key_presses (out r) = [" "%char]).
Proof.
  split; [exact press_edge_iff|]. split.
  - intros g b W.
    destruct (loop_button_outputs g b) as [Hk Hw].
    destruct (Hw W) as [H1 H2].
    repeat split; auto using loop_lastState.
  - intros g b W raws r.
    destruct (loops_outputs raws g b) as [Hk Hw].
    destruct (Hw W) as [H1 H2]. fold r in Hk, H1, H2.
    assert (E : press_edges (lastState g) raws =
                [false; false; true; false; false])
      by (destruct (lastState g); reflexivity).
    rewrite E in *. repeat split; assumption.
Qed.

Lemma C5_witness :
  wired initial /\
  pin_writes BUTTON_LED
    (out (loops [LOW; LOW; HIGH; HIGH; LOW] initial
                (mkBoard 0 [] LOW ["1"%char]))) =
  [LOW; LOW; HIGH; HIGH; LOW].
Proof.
  split; [split; reflexivity|].
  apply (proj2 (proj2 C5_button_mirror_and_rising_edge)
               initial (mkBoard 0 [] LOW ["1"%char])).
  split; reflexivity.
Defined.

(** C10. The stored sample starts [HIGH] and is still [HIGH] after [setup].
    With the stored sample [HIGH], a pass that reads [HIGH] detects no edge
    and presses no key.  Over any number of passes from there, the passes
    that press the key are those whose edge test succeeds, and an edge test
    can succeed only in a pass that comes after a pass that read [LOW]. *)
Theorem C10_no_press_until_low_sampled :
  lastState initial = HIGH /\
  (forall b0, lastState (val (setup initial b0)) = HIGH) /\
  (forall (g : Globals) (b : Board),
      lastState g = HIGH -> button b = HIGH ->
      press_edge (lastState g) (button b) = false /\
      key_presses (out (loop g b)) = []) /\
  (forall (raws : list Level) (g : Globals) (b : Board),
      lastState g = HIGH ->
      key_presses (out (loops raws g b)) =
      map (fun _ => " "%char) (filter id (press_edges HIGH raws)) /\
      (forall i, nth i (press_edges HIGH raws) false = true ->
                 exists j, (j < i)%nat /\ nth j raws HIGH = LOW)).
Proof.
  split; [reflexivity|]. split; [|split].
  - intros b0. destruct b0 as [cl [|d1 [|d2 el]] bt q]; reflexivity.
  - intros g b Hg Hb.
    destruct (loop_button_outputs g b) as [Hk _].
    rewrite Hg, Hb in *. split; [reflexivity|exact Hk].
  - intros raws g b Hg. split.
    + rewrite <- Hg. apply loops_outputs.
    + intros i. apply press_edges_needs_low.
Qed.

Lemma C10_witness :
  lastState initial = HIGH /\
  key_presses
    (out (loops [HIGH; HIGH; LOW; HIGH] initial (mkBoard 0 [] LOW []))) =
  map (fun _ => " "%char)
      (filter id (press_edges HIGH [HIGH; HIGH; LOW; HIGH])).
Proof.
  split; [reflexivity|].
  apply (proj2 (proj2 (proj2 C10_no_press_until_low_sampled))
               [HIGH; HIGH; LOW; HIGH] initial (mkBoard 0 [] LOW [])).
  reflexivity.
Defined.

(** ** Claims on the serial block *)

(** C3, the claim as stated fails: with two bytes waiting, one pass leaves
    the second byte in the buffer and does not act on it. *)
Lemma C3_counterexample :
  let b := mkBoard 0 [] LOW ["A"; "B"]%char in
  rx b = ["A"; "B"]%char /\
  rx (board (loop initial b)) = ["B"]%char /\
  mode (P1 (val (loop initial b))) = SOLID_ON /\
  mode (P2 (val (loop initial b))) = OFF_MODE.
Proof. repeat split. Qed.

(** C3, amended.  A pass reads at most one byte, the oldest one waiting,
    and acts on it; the bytes behind it stay in the buffer in their order.
    Successive passes take them one per pass: after [n] passes the first
    [n] waiting bytes have been acted on in arrival order, each of them
    once, and the rest is still waiting. *)
Theorem C3_one_byte_per_pass_in_order :
  forall (g : Globals) (b : Board),
    loop_serial g b =
    match rx b with
    | [] => mkRes g b []
    | c :: cs => loop_switch c g (with_rx b cs)
    end /\
    (rx (board (loop g b)) = tl (rx b) /\
     modes (val (loop g b)) =
     match rx b with
     | [] => modes g
     | c :: _ => command_modes (modes g) c
     end) /\
    (forall raws : list Level,
        rx (board (loops raws g b)) = skipn (length raws) (rx b) /\
        modes (val (loops raws g b)) =
        fold_left command_modes (firstn (length raws) (rx b)) (modes g)).
Proof.
  intros g b. split; [|split].
  - destruct (rx b) as [|c cs] eqn:E.
    + apply loop_serial_empty. exact E.
    + apply loop_serial_byte. exact E.
  - split; [apply loop_board|apply loop_modes].
  - intros raws. split; [apply loops_rx|apply loops_modes].
Qed.

Lemma led_P1 (g : Globals) : led PLAYER1 g = P1 g.
Proof. reflexivity. Qed.

Lemma led_P2 (g : Globals) : led PLAYER2 g = P2 g.
Proof. reflexivity. Qed.

Lemma led_with_lastState (p : Player) (g : Globals) (lv : Level) :
  led p (with_lastState g lv) = led p g.
Proof. destruct p; reflexivity. Qed.

(** A player after one pass: what the serial block left, ticked once. *)
Lemma loop_led (g : Globals) (b : Board) (p : Player) :
  exists (b1 b2 : Board) (now : Z),
    rx b1 = rx b /\
    led p (val (loop g b)) =
    val (updateBlink
           (led p (val (loop_serial (with_lastState g (button b)) b1)))
           now b2).
Proof.
  rewrite loop_eq. rewrite loop_button_eq.
  destruct (millis_board b) as [Hb Hq]. rewrite Hb.
  cbn [val board].
  match goal with
  | |- context [loop_serial _ ?b1] =>
      assert (H1 : rx b1 = rx b)
        by (destruct (press_edge _ _); simpl; exact Hq);
      exists b1
  end.
  destruct p; cbn [led val with_P1 with_P2 P1 P2]; eauto.
Qed.

(** A pass with a byte waiting, for a player the byte puts in a static
    mode, and for a static player the byte does not address. *)
Lemma loop_command (g : Globals) (b : Board) (c : ascii) (cs : list ascii)
      (p : Player) :
  rx b = c :: cs ->
  (forall m, In (p, m) (interpret c) -> is_blink m = false ->
             mode (led p (val (loop g b))) = m /\
             currentLevel (led p (val (loop g b))) =
             level_after m (currentLevel (led p g))) /\
  (~ In p (map fst (interpret c)) -> is_blink (mode (led p g)) = false ->
   led p (val (loop g b)) = led p g).
Proof.
  intros Hrx.
  destruct (loop_led g b p) as (b1 & b2 & now & Hb1 & ->).
  rewrite loop_serial_interpret, Hb1, Hrx.
  split.
  - intros m Hin Hm.
    destruct (apply_commands_target (interpret c)
                (with_lastState g (button b)) (with_rx b1 cs) p m
                (interpret_nodup c) Hin) as [H1 H2].
    rewrite led_with_lastState in H2.
    rewrite updateBlink_static by (rewrite H1; exact Hm).
    split; assumption.
  - intros Hout Hm.
    rewrite apply_commands_other, led_with_lastState by exact Hout.
    rewrite updateBlink_static by exact Hm. reflexivity.
Qed.

Lemma loops_val_cons (raw : Level) (rest : list Level) (g : Globals)
      (b : Board) :
  val (loops (raw :: rest) g b) =
  val (loops rest (val (loop g (with_button b raw)))
             (board (loop g (with_button b raw)))).
Proof. rewrite loops_cons. reflexivity. Qed.

Lemma loops_board_cons (raw : Level) (rest : list Level) (g : Globals)
      (b : Board) :
  board (loops (raw :: rest) g b) =
  board (loops rest (val (loop g (with_button b raw)))
               (board (loop g (with_button b raw)))).
Proof. rewrite loops_cons. reflexivity. Qed.

Lemma loops_nil (g : Globals) (b : Board) :
  val (loops [] g b) = g /\ board (loops [] g b) = b.
Proof. split; reflexivity. Qed.

Lemma two_passes_Y_b (g : Globals) (b : Board) (raw1 raw2 : Level)
      (rest : list ascii) :
  rx b = ("Y" :: "b" :: rest)%char ->
  mode (P1 (val (loops [raw1; raw2] g b))) = SOLID_ON /\
  currentLevel (P1 (val (loops [raw1; raw2] g b))) = HIGH /\
  mode (P2 (val (loops [raw1; raw2] g b))) = OFF_MODE /\
  currentLevel (P2 (val (loops [raw1; raw2] g b))) = LOW /\
  rx (board (loops [raw1; raw2] g b)) = rest.
Proof.
  intros Hrx.
  rewrite !loops_val_cons, !loops_board_cons.
  rewrite (proj1 (loops_nil _ _)), (proj2 (loops_nil _ _)).
  assert (Hrx1 : rx (with_button b raw1) = ("Y" :: "b" :: rest)%char)
    by exact Hrx.
  destruct (loop_command g _ _ _ PLAYER1 Hrx1) as [A1 _].
  destruct (A1 SOLID_ON) as [A1m A1l]; [left; reflexivity|reflexivity|].
  clear A1.
  pose proof (proj1 (loop_board g (with_button b raw1))) as Hq.
  rewrite Hrx1 in Hq.
  assert (Hrx2 : rx (with_button (board (loop g (with_button b raw1))) raw2)
                 = ("b" :: rest)%char) by exact Hq.
  destruct (loop_command (val (loop g (with_button b raw1))) _ _ _
                         PLAYER1 Hrx2) as [_ B1].
  destruct (loop_command (val (loop g (with_button b raw1))) _ _ _
                         PLAYER2 Hrx2) as [B2 _].
  destruct (B2 OFF_MODE) as [B2m B2l]; [left; reflexivity|reflexivity|].
  clear B2.
  pose proof (proj1 (loop_board (val (loop g (with_button b raw1)))
                                (with_button (board (loop g (with_button b raw1)))
                                             raw2))) as Hq2.
  rewrite Hrx2 in Hq2.
  assert (N : ~ In PLAYER1 (map fst (interpret "b"%char)))
    by (clear; simpl; intuition discriminate).
  assert (S1 : is_blink (mode (led PLAYER1 (val (loop g (with_button b raw1)))))
               = false) by (rewrite A1m; reflexivity).
  pose proof (B1 N S1) as B1'. clear B1.
  rewrite <- !led_P1, <- !led_P2.
  rewrite B1', A1m, A1l, B2m, B2l, Hq2. repeat split.
Qed.

(** C6. The byte ['Y'] and then the byte ['b'] leave P1 in [SOLID_ON] at
    [HIGH] and P2 in [OFF_MODE] at [LOW], both through the switch alone and
    through two passes of [loop] that find the two bytes waiting.  In
    general, of two bytes in a row the later decides the mode of every
    player it addresses, whatever the earlier byte was, and with it the
    level when the mode is a static one. *)
Theorem C6_later_command_wins :
  forall (g : Globals) (b : Board),
    (let r1 := loop_switch "Y"%char g b in
     let r2 := loop_switch "b"%char (val r1) (board r1) in
     mode (P1 (val r2)) = SOLID_ON /\ currentLevel (P1 (val r2)) = HIGH /\
     mode (P2 (val r2)) = OFF_MODE /\ currentLevel (P2 (val r2)) = LOW) /\
    (forall (raw1 raw2 : Level) (rest : list ascii),
        rx b = ("Y" :: "b" :: rest)%char ->
        mode (P1 (val (loops [raw1; raw2] g b))) = SOLID_ON /\
        currentLevel (P1 (val (loops [raw1; raw2] g b))) = HIGH /\
        mode (P2 (val (loops [raw1; raw2] g b))) = OFF_MODE /\
        currentLevel (P2 (val (loops [raw1; raw2] g b))) = LOW /\
        rx (board (loops [raw1; raw2] g b)) = rest) /\
    (forall (c1 c2 : ascii) (p : Player) (m : LedMode),
        In (p, m) (interpret c2) ->
        let r1 := loop_switch c1 g b in
        let r2 := loop_switch c2 (val r1) (board r1) in
        mode (led p (val r2)) = m /\
        currentLevel (led p (val r2)) =
        level_after m (currentLevel (led p (val r1)))).
Proof.
  intros g b.
  assert (Hgen : forall (c1 c2 : ascii) (p : Player) (m : LedMode),
             In (p, m) (interpret c2) ->
             let r1 := loop_switch c1 g b in
             let r2 := loop_switch c2 (val r1) (board r1) in
             mode (led p (val r2)) = m /\
             currentLevel (led p (val r2)) =
             level_after m (currentLevel (led p (val r1)))).
  { intros c1 c2 p m Hin r1 r2. subst r2.
    rewrite (loop_switch_interpret c2).
    apply apply_commands_target; [apply interpret_nodup|exact Hin]. }
  split; [|split; [|exact Hgen]].
  - cbv zeta.
    destruct (Hgen "Y"%char "b"%char PLAYER2 OFF_MODE) as [H1 H2];
      [left; reflexivity|].
    cbv zeta in H1, H2. cbn [led] in H1, H2.
    rewrite (loop_switch_interpret "b"%char).
    pose proof (apply_commands_other (interpret "b"%char)
                  (val (loop_switch "Y"%char g b))
                  (board (loop_switch "Y"%char g b)) PLAYER1) as H3.
    cbn [led] in H3. rewrite H3 by (simpl; intuition discriminate).
    rewrite <- (loop_switch_interpret "b"%char), H1, H2.
    rewrite (loop_switch_interpret "Y"%char).
    destruct (apply_commands_target (interpret "Y"%char) g b PLAYER1 SOLID_ON
                (interpret_nodup _)) as [H4 H5]; [left; reflexivity|].
    cbn [led] in H4, H5. rewrite H4, H5. repeat split.
  - intros raw1 raw2 rest Hrx. exact (two_passes_Y_b g b raw1 raw2 rest Hrx).
Qed.

Lemma C6_witness :
  rx (mkBoard 0 [] LOW ["Y"; "b"]%char) = ("Y" :: "b" :: [])%char /\
  mode (P1 (val (loops [LOW; LOW] initial (mkBoard 0 [] LOW ["Y"; "b"]%char))))
  = SOLID_ON.
Proof.
  split; [reflexivity|].
  apply (proj1 (proj2 (C6_later_command_wins
                         initial (mkBoard 0 [] LOW ["Y"; "b"]%char)))
               LOW LOW []).
  reflexivity.
Defined.

(** ** Bytes outside the command table *)

Lemma millis_with_rx (b : Board) (q : list ascii) :
  millis (with_rx b q) =
  mkRes (val (millis b)) (with_rx (board (millis b)) q) [].
Proof. destruct b as [cl [|d el] bt q0]; reflexivity. Qed.

Lemma loop_button_with_rx (g : Globals) (b : Board) (q : list ascii) :
  loop_button g (with_rx b q) =
  mkRes (val (loop_button g b)) (with_rx (board (loop_button g b)) q)
        (out (loop_button g b)).
Proof.
  rewrite !loop_button_eq. destruct b as [cl el bt q0]. simpl.
  destruct (press_edge _ _); reflexivity.
Qed.

Lemma updateBlink_canon (pl : PlayerLed) (now : Z) (b : Board) :
  updateBlink pl now b =
  mkRes (val (updateBlink pl now (mkBoard 0 [] LOW []))) b
        (out (updateBlink pl now (mkBoard 0 [] LOW []))).
Proof.
  unfold updateBlink.
  destruct (mode pl); try reflexivity; destruct (_ <=? _); reflexivity.
Qed.

Lemma loop_switch_unknown (c : ascii) (g : Globals) (b : Board) :
  ~ In c command_bytes -> loop_switch c g b = mkRes g b [].
Proof.
  intros H. rewrite loop_switch_interpret, (interpret_unknown c H).
  reflexivity.
Qed.

(** A pass that finds a byte outside the table is the pass on an empty
    buffer, except that it removes the byte. *)
Lemma loop_unknown_byte (g : Globals) (b : Board) (c : ascii)
      (cs : list ascii) :
  rx b = c :: cs -> ~ In c command_bytes ->
  val (loop g b) = val (loop g (with_rx b [])) /\
  out (loop g b) = out (loop g (with_rx b [])) /\
  board (loop g b) = with_rx (board (loop g (with_rx b []))) cs.
Proof.
  intros Hrx Hc.
  rewrite (loop_eq g b), (loop_eq g (with_rx b [])). cbv zeta.
  rewrite millis_with_rx. cbn [val board out].
  rewrite loop_button_with_rx. cbn [val board out].
  assert (H1 : rx (board (loop_button g (board (millis b)))) = c :: cs).
  { rewrite (proj2 (loop_button_board _ _)), (proj2 (millis_board _)).
    exact Hrx. }
  revert H1.
  generalize (val (millis b)). generalize (loop_button g (board (millis b))).
  intros r1 now H1.
  rewrite (loop_serial_byte (val r1) (board r1) c cs H1).
  rewrite (loop_switch_unknown c _ _ Hc).
  rewrite (loop_serial_empty (val r1) (with_rx (board r1) []) eq_refl).
  cbn [val board out].
  rewrite (updateBlink_canon (P1 (val r1)) now (with_rx (board r1) cs)).
  rewrite (updateBlink_canon (P1 (val r1)) now (with_rx (board r1) [])).
  cbn [val board out].
  rewrite (updateBlink_canon (P2 (val r1)) now (with_rx (board r1) cs)).
  rewrite (updateBlink_canon (P2 (val r1)) now (with_rx (board r1) [])).
  cbn [val board out].
  repeat split.
Qed.

(** C7. A byte outside the table of twelve command bytes yields no command
    and is ignored: the switch returns the globals as they were (mode,
    timer and level of both players included), leaves the board alone and
    writes nothing.  A pass of [loop] that finds such a byte returns what
    the pass on an empty buffer returns, with the same output; it only
    removes the byte.  [loop] being a total function, the pass ends. *)
Theorem C7_unknown_byte_is_ignored :
  forall c : ascii,
    ~ In c command_bytes ->
    interpret c = [] /\
    (forall (g : Globals) (b : Board), loop_switch c g b = mkRes g b []) /\
    (forall (g : Globals) (b : Board) (cs : list ascii),
        rx b = c :: cs ->
        loop_serial g b = mkRes g (with_rx b cs) [] /\
        val (loop g b) = val (loop g (with_rx b [])) /\
        out (loop g b) = out (loop g (with_rx b [])) /\
        board (loop g b) = with_rx (board (loop g (with_rx b []))) cs).
Proof.
  intros c Hc. split; [exact (interpret_unknown c Hc)|]. split.
  - intros g b. exact (loop_switch_unknown c g b Hc).
  - intros g b cs Hrx. split.
    + rewrite (loop_serial_byte g b c cs Hrx).
      exact (loop_switch_unknown c g _ Hc).
    + exact (loop_unknown_byte g b c cs Hrx Hc).
Qed.

Lemma C7_witness :
  ~ In "z"%char command_bytes /\
  loop_switch "z"%char initial (mkBoard 7 [] HIGH []) =
  mkRes initial (mkBoard 7 [] HIGH []) [].
Proof.
  assert (H : ~ In "z"%char command_bytes)
    by (simpl; intuition discriminate).
  split; [exact H|].
  exact (proj1 (proj2 (C7_unknown_byte_is_ignored "z"%char H))
               initial (mkBoard 7 [] HIGH [])).
Defined.

(** ** The level of a static mode is an invariant *)

Lemma apply_commands_settled (cmds : list (Player * LedMode)) :
  forall (g : Globals) (b : Board) (p : Player),
    settled (led p g) -> settled (led p (val (apply_commands cmds g b))).
Proof.
  induction cmds as [|[q m] rest IH]; intros g b p H; [exact H|].
  rewrite apply_commands_cons. cbv zeta. cbn [val].
  apply IH. destruct p, q; try exact H; apply settled_set_mode.
Qed.

Lemma loop_settled (g : Globals) (b : Board) (p : Player) :
  settled (led p g) -> settled (led p (val (loop g b))).
Proof.
  intros H.
  destruct (loop_led g b p) as (b1 & b2 & now & _ & ->).
  apply settled_updateBlink.
  rewrite loop_serial_interpret.
  destruct (rx b1); [cbn [val]; rewrite led_with_lastState; exact H|].
  apply apply_commands_settled. rewrite led_with_lastState. exact H.
Qed.

Lemma setup_settled (b : Board) (p : Player) :
  settled (led p (val (setup initial b))).
Proof.
  destruct b as [cl [|d1 [|d2 el]] bt q]; destruct p; reflexivity.
Qed.

(** ** Claims on mode changes, continued *)

Example set_mode_blink_restarts_period_at_1400 :
  is_blink BLINK_2HZ = true /\
  idles (val (set_mode (mkPlayerLed 16 BLINK_1HZ 1000 HIGH) BLINK_2HZ
                       (mkBoard 1400 [] LOW [])))
        (mkBoard 1649 [] LOW [])
        (updateBlink
           (val (set_mode (mkPlayerLed 16 BLINK_1HZ 1000 HIGH) BLINK_2HZ
                          (mkBoard 1400 [] LOW [])))
           (ulong (val (millis (mkBoard 1400 [] LOW []))
                   + (modeToInterval BLINK_2HZ - 1)))
           (mkBoard 1649 [] LOW [])).
Proof.
  split; [reflexivity|].
  apply (set_mode_blink_restarts_period
           (mkPlayerLed 16 BLINK_1HZ 1000 HIGH) BLINK_2HZ
           (mkBoard 1400 [] LOW []) eq_refl).
Defined.

(** A [set_mode] to one of the three blink modes changes the mode and
    the timer only: pin and level are as before and nothing is written.
    Calls of [updateBlink] with clock values [T], ..., [T + p - 1] leave
    that level, the call at [T + p] inverts it, and in any sequence of
    calls the first write, if there is one, is the inverted level: [HIGH]
    for a player that was off, [LOW] for one that was solid. *)
Lemma blink_mode_change_keeps_level :
  forall (pl : PlayerLed) (m : LedMode) (b : Board),
    is_blink m = true ->
    let r := set_mode pl m b in
    let T := val (millis b) in
    let L := currentLevel pl in
    (val r = mkPlayerLed (pin pl) m T L /\ out r = []) /\
    (forall k b', 0 <= k < modeToInterval m ->
                  idles (val r) b' (updateBlink (val r) (ulong (T + k)) b')) /\
    (forall b',
        currentLevel
          (val (updateBlink (val r) (ulong (T + modeToInterval m)) b')) =
        toggled L) /\
    (forall nows b',
        ticks (val r) nows b' = mkRes (val r) b' [] \/
        exists rest,
          out (ticks (val r) nows b') =
          EvDigitalWrite (pin pl) (toggled L) :: rest) /\
    (mode pl = OFF_MODE -> settled pl -> L = LOW /\ toggled L = HIGH) /\
    (mode pl = SOLID_ON -> settled pl -> L = HIGH /\ toggled L = LOW).
Proof.
  intros pl m b Hb r T L.
  pose proof (interval_blink m Hb) as Hp.
  subst r. rewrite (set_mode_blink pl m b Hb). cbn [val out]. fold T L.
  split; [split; reflexivity|]. split; [|split; [|split; [|split]]].
  - intros k b' Hk. apply updateBlink_early. cbn [lastToggleMs mode].
    rewrite ulong_sub_after; unfold ULONG_MAX; lia.
  - intros b'. rewrite updateBlink_due; [reflexivity|exact Hb|].
    cbn [lastToggleMs mode].
    rewrite ulong_sub_after; unfold ULONG_MAX; lia.
  - intros nows b'.
    exact (ticks_first_write (mkPlayerLed (pin pl) m T L) nows b' Hb).
  - unfold settled. intros -> H. subst L. rewrite H. split; reflexivity.
  - unfold settled. intros -> H. subst L. rewrite H. split; reflexivity.
Qed.

Example blink_mode_change_keeps_level_from_off :
  is_blink BLINK_4HZ = true /\
  mode (mkPlayerLed 17 OFF_MODE 40 LOW) = OFF_MODE /\
  settled (mkPlayerLed 17 OFF_MODE 40 LOW) /\
  toggled (currentLevel (mkPlayerLed 17 OFF_MODE 40 LOW)) = HIGH.
Proof.
  split; [reflexivity|]. split; [reflexivity|]. split; [reflexivity|].
  apply (blink_mode_change_keeps_level
           (mkPlayerLed 17 OFF_MODE 40 LOW) BLINK_4HZ (mkBoard 90 [] LOW [])
           eq_refl); reflexivity.
Defined.

(** ** The clock value [loop] hands to [updateBlink] *)

(** [loop] reads [millis()] once at its head and hands that value to
    [updateBlink], while [applyModeImmediate] reads [millis()] again.  When
    the clock moved in between, here by the 50 ms key hold, the timer is
    ahead of [now], the [unsigned long] difference wraps to a large value
    and the pass that sets the blink mode also toggles the player. *)
Remark loop_blink_command_after_key_hold :
  let g := mkGlobals (P1 initial) (P2 initial) LOW in
  let b := mkBoard 1000 [] HIGH ["1"%char] in
  val (loop g b) =
  mkGlobals (mkPlayerLed P1_LED_PIN BLINK_1HZ 1000 HIGH) (P2 initial) HIGH /\
  out (loop g b) =
  [EvDigitalWrite BUTTON_LED HIGH; EvDigitalWrite PI_LED HIGH;
   EvKeyboardPress " "%char; EvKeyboardReleaseAll;
   EvDigitalWrite P1_LED_PIN HIGH] /\
  ulong_sub 1000 1050 = 4294967246.
Proof. repeat split. Qed.

(** With no time passing between the two readings the same pass leaves the
    level alone. *)
Remark loop_blink_command_same_reading :
  let g := mkGlobals (P1 initial) (P2 initial) HIGH in
  let b := mkBoard 1000 [] HIGH ["1"%char] in
  val (loop g b) =
  mkGlobals (mkPlayerLed P1_LED_PIN BLINK_1HZ 1000 LOW) (P2 initial) HIGH /\
  pin_writes P1_LED_PIN (out (loop g b)) = [].
Proof. repeat split. Qed.

(** C2.  The timer reset of [applyModeImmediate] does not keep a mode
    change from toggling at once.  After [setup], P1 is off at [LOW].  A
    pass finds the byte ['1']; [millis()] reads 1000 at the head of [loop]
    and [T = 1001] inside [applyModeImmediate].  [updateBlink] is then
    called with [now = 1000], behind the timer: [1000 - 1001] is
    [2^32 - 1] as [unsigned long], at least the period, so the pass that
    set the blink mode writes [HIGH] to the pin and leaves the timer at
    1000.  The call at [T + p - 1 = 1500] toggles again and the call at
    [T + p = 1501] does not.  The same happens, with the clock moved by the
    50 ms key hold, when the pass detects a press edge. *)
Theorem C2_blink_command_toggles_in_its_own_pass :
  let g := val (setup initial (mkBoard 0 [] LOW [])) in
  let b := mkBoard 1000 [0; 1] LOW ["1"%char] in
  let r := loop g b in
  let g1 := val (loop g (mkBoard 998 [] LOW [])) in
  let r1 := loop g1 (mkBoard 1000 [] HIGH ["1"%char]) in
  (P1 g = mkPlayerLed P1_LED_PIN OFF_MODE 0 LOW /\
   val (millis b) = 1000 /\
   val (millis (board (millis b))) = 1001) /\
  (P1 (val r) = mkPlayerLed P1_LED_PIN BLINK_1HZ 1000 HIGH /\
   pin_writes P1_LED_PIN (out r) = [HIGH]) /\
  (forall b', flips (P1 (val r)) 1500 b' (updateBlink (P1 (val r)) 1500 b')) /\
  (forall b',
      idles (mkPlayerLed P1_LED_PIN BLINK_1HZ 1500 LOW) b'
            (updateBlink (mkPlayerLed P1_LED_PIN BLINK_1HZ 1500 LOW) 1501 b')) /\
  (P1 g1 = mkPlayerLed P1_LED_PIN OFF_MODE 0 LOW /\ lastState g1 = LOW /\
   P1 (val r1) = mkPlayerLed P1_LED_PIN BLINK_1HZ 1000 HIGH /\
   pin_writes P1_LED_PIN (out r1) = [HIGH] /\
   key_presses (out r1) = [" "%char]).
Proof.
  cbv zeta. split; [repeat split|]. split; [repeat split|].
  split; [|split].
  - intros b'.
    change (P1 (val (loop (val (setup initial (mkBoard 0 [] LOW [])))
                          (mkBoard 1000 [0; 1] LOW ["1"%char]))))
      with (mkPlayerLed P1_LED_PIN BLINK_1HZ 1000 HIGH).
    repeat split.
  - intros b'. reflexivity.
  - repeat split.
Qed.

(** C9.  A player that enters a blink mode does not always spend a first
    period at the level it had.  After [setup], P2 is off at [LOW]; a pass
    finds the byte ['4'] while [millis()] reads 1000 at the head of [loop]
    and 1001 inside [applyModeImmediate]: [applyModeImmediate] itself
    leaves the level and writes nothing, but [updateBlink], called with
    the clock value read before, inverts the level in that same pass and
    P2 is at [HIGH] at once.  Likewise a P2 that was solid at [HIGH] is at
    [LOW] at once. *)
Theorem C9_blink_command_from_static_toggles_in_its_own_pass :
  let g := val (setup initial (mkBoard 0 [] LOW [])) in
  let b := mkBoard 1000 [0; 1] LOW ["4"%char] in
  let gs := val (loop g (mkBoard 900 [] LOW ["B"%char])) in
  (mode (P2 g) = OFF_MODE /\ currentLevel (P2 g) = LOW /\
   val (set_mode (P2 g) BLINK_1HZ (board (millis b))) =
   mkPlayerLed P2_LED_PIN BLINK_1HZ 1001 LOW /\
   out (set_mode (P2 g) BLINK_1HZ (board (millis b))) = [] /\
   P2 (val (loop g b)) = mkPlayerLed P2_LED_PIN BLINK_1HZ 1000 HIGH /\
   pin_writes P2_LED_PIN (out (loop g b)) = [HIGH]) /\
  (mode (P2 gs) = SOLID_ON /\ currentLevel (P2 gs) = HIGH /\
   P2 (val (loop gs b)) = mkPlayerLed P2_LED_PIN BLINK_1HZ 1000 LOW /\
   pin_writes P2_LED_PIN (out (loop gs b)) = [LOW]).
Proof. cbv zeta. split; repeat split. Qed.

(** * Further properties of the sketch *)

(** ** [setup] *)

Lemma setup_eq (b : Board) :
  val (setup initial b) =
  mkGlobals (mkPlayerLed P1_LED_PIN OFF_MODE (val (millis b)) LOW)
            (mkPlayerLed P2_LED_PIN OFF_MODE
                         (val (millis (board (millis b)))) LOW) HIGH /\
  out (setup initial b) =
  [EvPinMode P1_LED_PIN OUTPUT; EvPinMode P2_LED_PIN OUTPUT;
   EvPinMode BUTTON_LED OUTPUT; EvPinMode PI_LED OUTPUT;
   EvPinMode BUTTON_PIN INPUT;
   EvDigitalWrite P1_LED_PIN LOW; EvDigitalWrite P2_LED_PIN LOW;
   EvSerialBegin 9600; EvKeyboardBegin;
   EvDigitalWrite P1_LED_PIN LOW; EvDigitalWrite P2_LED_PIN LOW] /\
  clock_only b (board (setup initial b)).
Proof. destruct b as [cl [|d1 [|d2 el]] bt q]; repeat split. Qed.

(** X1. Whatever the board, [setup] configures the four LED pins as
    outputs and the button pin as input, writes [LOW] to both player pins,
    opens the serial port at 9600 baud and the keyboard, and applies the
    initial mode of both players: both end in [OFF_MODE] at [LOW] with
    their timers at the two clock readings, [LOW] having been written to
    each player pin a second time; the stored button sample stays
    [HIGH]. *)
Theorem X1_setup_result :
  forall b : Board,
    let t1 := val (millis b) in
    let t2 := val (millis (board (millis b))) in
    val (setup initial b) =
    mkGlobals (mkPlayerLed P1_LED_PIN OFF_MODE t1 LOW)
              (mkPlayerLed P2_LED_PIN OFF_MODE t2 LOW) HIGH /\
    out (setup initial b) =
    [EvPinMode P1_LED_PIN OUTPUT; EvPinMode P2_LED_PIN OUTPUT;
     EvPinMode BUTTON_LED OUTPUT; EvPinMode PI_LED OUTPUT;
     EvPinMode BUTTON_PIN INPUT;
     EvDigitalWrite P1_LED_PIN LOW; EvDigitalWrite P2_LED_PIN LOW;
     EvSerialBegin 9600; EvKeyboardBegin;
     EvDigitalWrite P1_LED_PIN LOW; EvDigitalWrite P2_LED_PIN LOW] /\
    clock_only b (board (setup initial b)).
Proof. intros b. exact (setup_eq b). Qed.

(** ** Invariants of every run *)

Lemma setup_wired (b : Board) : wired (val (setup initial b)).
Proof. destruct (setup_eq b) as (-> & _ & _). split; reflexivity. Qed.

Lemma reaches_wired (g : Globals) (tr : list Event) :
  reaches g tr -> wired g.
Proof.
  induction 1 as [b|g tr b _ IH]; [apply setup_wired|].
  apply loop_wired. exact IH.
Qed.

Lemma reaches_settled (g : Globals) (tr : list Event) (p : Player) :
  reaches g tr -> settled (led p g).
Proof.
  induction 1 as [b|g tr b _ IH]; [apply setup_settled|].
  apply loop_settled. exact IH.
Qed.

(** X2. After power-up and any number of passes, on any inputs, a player
    in [OFF_MODE] has level [LOW] and a player in [SOLID_ON] has level
    [HIGH], and both players still hold the pins they were constructed
    with. *)
Theorem X2_static_level_invariant :
  forall (g : Globals) (tr : list Event),
    reaches g tr ->
    forall p : Player,
      (mode (led p g) = OFF_MODE -> currentLevel (led p g) = LOW) /\
      (mode (led p g) = SOLID_ON -> currentLevel (led p g) = HIGH) /\
      pin (led p g) = match p with
                      | PLAYER1 => P1_LED_PIN
                      | PLAYER2 => P2_LED_PIN
                      end.
Proof.
  intros g tr H p.
  pose proof (reaches_settled g tr p H) as Hs.
  destruct (reaches_wired g tr H) as [W1 W2].
  unfold settled in Hs. split; [|split].
  - intros E. rewrite E in Hs. exact Hs.
  - intros E. rewrite E in Hs. exact Hs.
  - destruct p; assumption.
Qed.

Lemma X2_witness :
  reaches (val (loop (val (setup initial (mkBoard 0 [] LOW ["A"%char])))
                     (board (setup initial (mkBoard 0 [] LOW ["A"%char])))))
          (out (setup initial (mkBoard 0 [] LOW ["A"%char])) ++
           out (loop (val (setup initial (mkBoard 0 [] LOW ["A"%char])))
                     (board (setup initial (mkBoard 0 [] LOW ["A"%char]))))) /\
  pin (led PLAYER2
           (val (loop (val (setup initial (mkBoard 0 [] LOW ["A"%char])))
                      (board (setup initial (mkBoard 0 [] LOW ["A"%char]))))))
  = P2_LED_PIN.
Proof.
  assert (R : reaches
                (val (loop (val (setup initial (mkBoard 0 [] LOW ["A"%char])))
                           (board (setup initial (mkBoard 0 [] LOW ["A"%char])))))
                (out (setup initial (mkBoard 0 [] LOW ["A"%char])) ++
                 out (loop (val (setup initial (mkBoard 0 [] LOW ["A"%char])))
                           (board (setup initial (mkBoard 0 [] LOW ["A"%char]))))))
    by (apply reaches_loop, reaches_setup).
  split; [exact R|].
  exact (proj2 (proj2 (X2_static_level_invariant _ _ R PLAYER2))).
Defined.

(** ** What a run writes *)

Lemma button_events_pins (raw : Level) (e : bool) (q : Z) (lv : Level) :
  In (EvDigitalWrite q lv)
     (EvDigitalWrite BUTTON_LED raw ::
      if e then [EvDigitalWrite PI_LED HIGH; EvKeyboardPress " "%char;
                 EvKeyboardReleaseAll]
      else [EvDigitalWrite PI_LED LOW]) ->
  q = BUTTON_LED \/ q = PI_LED.
Proof.
  destruct e; simpl; intros H;
    repeat (destruct H as [H|H]; [inversion H; auto|]); destruct H.
Qed.

Lemma loop_writes_pins (g : Globals) (b : Board) (q : Z) (lv : Level) :
  wired g -> In (EvDigitalWrite q lv) (out (loop g b)) -> In q output_pins.
Proof.
  intros [W1 W2] H.
  destruct (loop_out g b) as (evs & E & Hevs).
  rewrite E in H. apply in_app_or in H. destruct H as [H|H].
  - apply button_events_pins in H. unfold output_pins.
    destruct H as [-> | ->]; simpl; auto.
  - rewrite Forall_forall in Hevs.
    destruct (Hevs _ H) as [lv' [E'|E']]; inversion E'; subst q;
      unfold output_pins; simpl; auto.
Qed.

(** X3. In every run since power-up all [digitalWrite] calls go to the two
    player pins, the button LED and the built-in LED; the button input pin
    is never written. *)
Theorem X3_writes_only_to_led_pins :
  forall (g : Globals) (tr : list Event),
    reaches g tr ->
    (forall q lv, In (EvDigitalWrite q lv) tr -> In q output_pins) /\
    (forall lv, ~ In (EvDigitalWrite BUTTON_PIN lv) tr).
Proof.
  intros g tr H.
  assert (A : forall q lv, In (EvDigitalWrite q lv) tr -> In q output_pins).
  { induction H as [b|g tr b Hr IH]; intros q lv Hin.
    - destruct (setup_eq b) as (_ & E & _). rewrite E in Hin.
      unfold output_pins. simpl in Hin.
      repeat (destruct Hin as [Hin|Hin];
              [try discriminate; inversion Hin; simpl; auto|]).
      destruct Hin.
    - apply in_app_or in Hin. destruct Hin as [Hin|Hin]; [eauto|].
      eapply loop_writes_pins; [eapply reaches_wired; exact Hr|exact Hin]. }
  split; [exact A|].
  intros lv Hin. apply A in Hin. unfold output_pins in Hin. simpl in Hin.
  repeat (destruct Hin as [Hin|Hin]; [discriminate|]). destruct Hin.
Qed.

Lemma X3_witness :
  reaches (val (setup initial (mkBoard 5 [] HIGH [])))
          (out (setup initial (mkBoard 5 [] HIGH []))) /\
  ~ In (EvDigitalWrite BUTTON_PIN HIGH)
       (out (setup initial (mkBoard 5 [] HIGH []))).
Proof.
  split; [apply reaches_setup|].
  exact (proj2 (X3_writes_only_to_led_pins _ _
                  (reaches_setup (mkBoard 5 [] HIGH []))) HIGH).
Defined.

(** ** Key events *)






(** ** The stored level and the pin *)

Lemma last_cons_default {A : Type} (a : A) (l : list A) (d d' : A) :
  last (a :: l) d = last (a :: l) d'.
Proof.
  revert a. induction l as [|y l IH]; intros a; [reflexivity|].
  change (last (y :: l) d = last (y :: l) d'). apply IH.
Qed.

Lemma last_app_default {A : Type} (l1 l2 : list A) (d : A) :
  last (l1 ++ l2) d = last l2 (last l1 d).
Proof.
  revert d. induction l1 as [|a l1 IH]; intros d; [reflexivity|].
  destruct l1 as [|a' l1].
  - destruct l2 as [|y l2]; [reflexivity|].
    change (last (y :: l2) d = last (y :: l2) a). apply last_cons_default.
  - change (last ((a' :: l1) ++ l2) d = last l2 (last (a' :: l1) d)).
    apply IH.
Qed.

Lemma set_mode_pin (pl : PlayerLed) (m : LedMode) (b : Board) :
  pin (val (set_mode pl m b)) = pin pl.
Proof. rewrite set_mode_val. reflexivity. Qed.

Lemma set_mode_tracks (pl : PlayerLed) (m : LedMode) (b : Board) (q : Z) :
  (q = pin pl ->
   currentLevel (val (set_mode pl m b)) =
   last (pin_writes q (out (set_mode pl m b))) (currentLevel pl)) /\
  (q <> pin pl -> pin_writes q (out (set_mode pl m b)) = []).
Proof.
  rewrite set_mode_val, set_mode_out. split.
  - intros ->. destruct m; simpl; rewrite ?Z.eqb_refl; reflexivity.
  - intros H. apply not_eq_sym in H.
    destruct m; simpl; try reflexivity;
      destruct (Z.eqb_spec (pin pl) q); congruence.
Qed.

Lemma updateBlink_tracks (pl : PlayerLed) (now : Z) (b : Board) (q : Z) :
  (q = pin pl ->
   currentLevel (val (updateBlink pl now b)) =
   last (pin_writes q (out (updateBlink pl now b))) (currentLevel pl)) /\
  (q <> pin pl -> pin_writes q (out (updateBlink pl now b)) = []).
Proof.
  destruct (is_blink (mode pl)) eqn:Hb.
  - destruct (Z.le_gt_cases (modeToInterval (mode pl))
                            (ulong_sub now (lastToggleMs pl))) as [Hd|Hd].
    + rewrite (updateBlink_due pl now b Hb Hd). simpl. split.
      * intros ->. rewrite Z.eqb_refl. reflexivity.
      * intros H. destruct (Z.eqb_spec (pin pl) q); congruence.
    + rewrite (updateBlink_early pl now b Hd). split; reflexivity.
  - rewrite (updateBlink_static pl now b Hb). split; reflexivity.
Qed.

Lemma apply_commands_tracks (cmds : list (Player * LedMode)) :
  forall (g : Globals) (b : Board) (p : Player),
    pin (P1 g) <> pin (P2 g) ->
    currentLevel (led p (val (apply_commands cmds g b))) =
    last (pin_writes (pin (led p g)) (out (apply_commands cmds g b)))
         (currentLevel (led p g)).
Proof.
  induction cmds as [|[q m] rest IH]; intros g b p Hne; [reflexivity|].
  rewrite apply_commands_cons. cbv zeta. cbn [val out].
  rewrite pin_writes_app, last_app_default.
  rewrite IH.
  - destruct p, q; cbn [led with_led with_P1 with_P2 P1 P2];
      rewrite ?set_mode_pin.
    + rewrite (proj1 (set_mode_tracks (P1 g) m b (pin (P1 g))) eq_refl).
      reflexivity.
    + rewrite (proj2 (set_mode_tracks (P2 g) m b (pin (P1 g))) Hne).
      reflexivity.
    + rewrite (proj2 (set_mode_tracks (P1 g) m b (pin (P2 g)))
                     (not_eq_sym Hne)).
      reflexivity.
    + rewrite (proj1 (set_mode_tracks (P2 g) m b (pin (P2 g))) eq_refl).
      reflexivity.
  - destruct q; cbn [with_led with_P1 with_P2 P1 P2];
      rewrite set_mode_pin; exact Hne.
Qed.

Lemma loop_serial_tracks (g : Globals) (b : Board) (p : Player) :
  pin (P1 g) <> pin (P2 g) ->
  currentLevel (led p (val (loop_serial g b))) =
  last (pin_writes (pin (led p g)) (out (loop_serial g b)))
       (currentLevel (led p g)).
Proof.
  intros Hne. rewrite loop_serial_interpret.
  destruct (rx b); [reflexivity|]. apply apply_commands_tracks. exact Hne.
Qed.

Lemma pass_tail_tracks (g1 : Globals) (b1 : Board) (now : Z) (p : Player) :
  pin (P1 g1) <> pin (P2 g1) ->
  let r2 := loop_serial g1 b1 in
  let r3 := updateBlink (P1 (val r2)) now (board r2) in
  let r4 := updateBlink (P2 (val r2)) now (board r3) in
  currentLevel (led p (with_P2 (with_P1 (val r2) (val r3)) (val r4))) =
  last (pin_writes (pin (led p g1)) (out r2 ++ out r3 ++ out r4))
       (currentLevel (led p g1)).
Proof.
  intros Hne. cbv zeta.
  pose proof (loop_serial_tracks g1 b1 p Hne) as Hs.
  pose proof (loop_serial_pin g1 b1 PLAYER1) as Hp1.
  pose proof (loop_serial_pin g1 b1 PLAYER2) as Hp2.
  revert Hs Hp1 Hp2. generalize (loop_serial g1 b1). intros r2 Hs Hp1 Hp2.
  cbn [led] in Hp1, Hp2.
  rewrite !pin_writes_app, !last_app_default.
  destruct p; cbn [led with_P1 with_P2 P1 P2] in *.
  - rewrite (proj2 (updateBlink_tracks (P2 (val r2)) now _ (pin (P1 g1)))) by
        (rewrite Hp2; exact Hne).
    cbn [last].
    rewrite (proj1 (updateBlink_tracks (P1 (val r2)) now (board r2)
                                       (pin (P1 g1)))) by
        (symmetry; exact Hp1).
    rewrite Hs. reflexivity.
  - rewrite (proj2 (updateBlink_tracks (P1 (val r2)) now (board r2)
                                       (pin (P2 g1)))) by
        (rewrite Hp1; exact (not_eq_sym Hne)).
    cbn [last].
    rewrite (proj1 (updateBlink_tracks (P2 (val r2)) now _ (pin (P2 g1)))) by
        (symmetry; exact Hp2).
    rewrite Hs. reflexivity.
Qed.

(** The level a pass leaves in a player is the last level the pass wrote
    to the player's pin, or the level it found when it wrote none. *)
Lemma loop_tracks (g : Globals) (b : Board) (p : Player) :
  wired g ->
  currentLevel (led p (val (loop g b))) =
  last (pin_writes (pin (led p g)) (out (loop g b)))
       (currentLevel (led p g)).
Proof.
  intros W. pose proof W as [W1 W2].
  assert (Hne : pin (P1 g) <> pin (P2 g))
    by (rewrite W1, W2; discriminate).
  rewrite loop_eq. cbn [val out].
  rewrite loop_button_eq. cbn [val board out].
  rewrite (pin_writes_app _ (_ :: _)), last_app_default.
  assert (Hb : pin_writes (pin (led p g))
                 (EvDigitalWrite BUTTON_LED (button (board (millis b))) ::
                  (if press_edge (lastState g) (button (board (millis b)))
                   then [EvDigitalWrite PI_LED HIGH; EvKeyboardPress " "%char;
                         EvKeyboardReleaseAll]
                   else [EvDigitalWrite PI_LED LOW])) = []).
  { destruct p; cbn [led]; rewrite ?W1, ?W2;
      destruct (press_edge _ _); reflexivity. }
  rewrite Hb. cbn [last].
  rewrite <- (led_with_lastState p g (button (board (millis b)))).
  apply pass_tail_tracks. exact Hne.
Qed.

(** X5. In every run since power-up the level stored in a player is the
    level last written to that player's pin: the stored level never
    disagrees with the pin. *)
Theorem X5_stored_level_is_last_write :
  forall (g : Globals) (tr : list Event),
    reaches g tr ->
    forall (p : Player) (d : Level),
      last (pin_writes (pin (led p g)) tr) d = currentLevel (led p g).
Proof.
  intros g tr H. induction H as [b|g tr b Hr IH]; intros p d.
  - destruct (setup_eq b) as (-> & -> & _). destruct p; reflexivity.
  - rewrite loop_pin, pin_writes_app, last_app_default, IH.
    symmetry. apply loop_tracks. eapply reaches_wired. exact Hr.
Qed.

Lemma X5_witness :
  reaches (val (setup initial (mkBoard 5 [] HIGH [])))
          (out (setup initial (mkBoard 5 [] HIGH []))) /\
  last (pin_writes (pin (led PLAYER1 (val (setup initial (mkBoard 5 [] HIGH [])))))
                   (out (setup initial (mkBoard 5 [] HIGH [])))) HIGH =
  currentLevel (led PLAYER1 (val (setup initial (mkBoard 5 [] HIGH [])))).
Proof.
  split; [apply reaches_setup|].
  exact (X5_stored_level_is_last_write _ _
           (reaches_setup (mkBoard 5 [] HIGH [])) PLAYER1 HIGH).
Defined.

(** ** Passes during which the clock moves by the delays only *)

Lemma millis_idle (b : Board) :
  elapsed b = [] -> millis b = mkRes (clock b) b [].
Proof. unfold millis. intros ->. reflexivity. Qed.

Lemma apply_commands_idle (cmds : list (Player * LedMode)) :
  forall (g : Globals) (b : Board),
    elapsed b = [] -> board (apply_commands cmds g b) = b.
Proof.
  induction cmds as [|[q m] rest IH]; intros g b H; [reflexivity|].
  rewrite apply_commands_cons. cbv zeta. cbn [board].
  rewrite set_mode_board, (millis_idle b H). cbn [board]. apply IH. exact H.
Qed.

Lemma loop_serial_idle (g : Globals) (b : Board) :
  elapsed b = [] -> board (loop_serial g b) = with_rx b (tl (rx b)).
Proof.
  intros H. rewrite loop_serial_interpret.
  destruct b as [cl el bt q]. simpl in H. subst el.
  destruct q as [|c cs]; [reflexivity|].
  apply apply_commands_idle. reflexivity.
Qed.

Lemma ulong_add_idemp (a k : Z) : ulong (ulong a + k) = ulong (a + k).
Proof. unfold ulong. apply Zplus_mod_idemp_l. Qed.

(** X6. When no time goes by other than in the delays, a pass takes one
    millisecond, or 51 milliseconds when it detects a press edge and holds
    the key; it consumes the oldest waiting byte, if any, and leaves the
    button line alone. *)
Theorem X6_pass_duration :
  forall (g : Globals) (b : Board),
    elapsed b = [] ->
    board (loop g b) =
    mkBoard (ulong (clock b +
                    (if press_edge (lastState g) (button b) then 51 else 1)))
            [] (button b) (tl (rx b)).
Proof.
  intros g b H.
  rewrite loop_eq. cbn [board]. rewrite !updateBlink_board.
  rewrite (millis_idle b H). cbn [val board].
  rewrite loop_button_eq. cbn [val board].
  destruct b as [cl el bt q]. simpl in H. subst el.
  destruct (press_edge (lastState g) bt) eqn:E; cbn [button clock];
    rewrite E; rewrite loop_serial_idle by reflexivity.
  - cbn [with_clock with_rx clock elapsed button rx].
    rewrite ulong_add_idemp. replace (cl + 50 + 1) with (cl + 51) by lia.
    reflexivity.
  - reflexivity.
Qed.

Lemma X6_witness :
  elapsed (mkBoard 1000 [] HIGH ["1"%char]) = [] /\
  board (loop (mkGlobals (P1 initial) (P2 initial) LOW)
              (mkBoard 1000 [] HIGH ["1"%char])) =
  mkBoard 1051 [] HIGH [].
Proof.
  split; [reflexivity|].
  exact (X6_pass_duration (mkGlobals (P1 initial) (P2 initial) LOW)
                          (mkBoard 1000 [] HIGH ["1"%char]) eq_refl).
Defined.

(** ** A blink command and the tick of the same pass *)

Lemma interpret_blink_single (c : ascii) (p : Player) (m : LedMode) :
  In (p, m) (interpret c) -> is_blink m = true -> interpret c = [(p, m)].
Proof.
  destruct c as [[] [] [] [] [] [] [] []]; simpl; intros Hin Hb;
    repeat (destruct Hin as [Hin|Hin];
            [inversion Hin; subst; try discriminate; reflexivity|]);
    destruct Hin.
Qed.

Lemma level_after_blink (m : LedMode) (lv : Level) :
  is_blink m = true -> level_after m lv = lv.
Proof. destruct m; simpl; intros H; try discriminate; reflexivity. Qed.

(** The player addressed by a blink command, when the serial block is
    done. *)
Lemma loop_serial_blink (g : Globals) (b : Board) (c : ascii)
      (cs : list ascii) (p : Player) (m : LedMode) :
  elapsed b = [] -> rx b = c :: cs ->
  In (p, m) (interpret c) -> is_blink m = true ->
  led p (val (loop_serial g b)) =
  mkPlayerLed (pin (led p g)) m (clock b) (currentLevel (led p g)) /\
  pin_writes (pin (led p g)) (out (loop_serial g b)) = [].
Proof.
  intros He Hrx Hin Hb.
  rewrite loop_serial_interpret, Hrx, (interpret_blink_single c p m Hin Hb).
  rewrite apply_commands_cons. cbv zeta. cbn [val out apply_commands ret].
  rewrite led_with_led_same, set_mode_val, set_mode_out.
  rewrite (level_after_blink m _ Hb).
  destruct b as [cl el bt q]. simpl in He. subst el.
  split; [reflexivity|].
  destruct m; try discriminate; reflexivity.
Qed.

Lemma ulong_sub_behind (t k : Z) :
  0 < k <= ULONG_MAX -> ulong_sub t (ulong (t + k)) = ULONG_MAX + 1 - k.
Proof.
  intros H. unfold ulong_sub, ulong.
  rewrite Zminus_mod_idemp_r.
  replace (t - (t + k)) with (- k) by lia.
  unfold ULONG_MAX in *.
  rewrite <- (Z.mod_add (- k) 1) by lia.
  rewrite Z.mod_small by lia. lia.
Qed.

Lemma ulong_sub_same (t : Z) : ulong_sub t t = 0.
Proof. unfold ulong_sub, ulong. rewrite Z.sub_diag. reflexivity. Qed.

(** X7. A pass finds a blink command for a player, and no time goes by
    other than in the delays.  If the pass detects no press edge, the
    player gets the blink mode, keeps its level and its timer is the clock
    value of the pass.  If the pass detects a press edge, the timer set by
    the command is 50 ms ahead of the clock value [loop] read at its head;
    the [unsigned long] difference wraps, and [updateBlink] inverts the
    level in that same pass and writes it to the pin. *)
Theorem X7_blink_command_and_tick_of_one_pass :
  forall (g : Globals) (b : Board) (c : ascii) (cs : list ascii)
         (p : Player) (m : LedMode),
    elapsed b = [] -> rx b = c :: cs ->
    In (p, m) (interpret c) -> is_blink m = true ->
    wired g ->
    let edge := press_edge (lastState g) (button b) in
    let lv := currentLevel (led p g) in
    led p (val (loop g b)) =
    mkPlayerLed (pin (led p g)) m (clock b)
                (if edge then toggled lv else lv) /\
    pin_writes (pin (led p g)) (out (loop g b)) =
    (if edge then [toggled lv] else []).
Proof.
  intros g b c cs p m He Hrx Hin Hb W. cbv zeta.
  pose proof (interval_blink m Hb) as Hp.
  pose proof W as [W1 W2].
  rewrite loop_eq. cbn [val out].
  rewrite (millis_idle b He). cbn [val board].
  rewrite loop_button_eq. cbn [val board out].
  rewrite (pin_writes_app _ (_ :: _)).
  assert (Hbtn : pin_writes (pin (led p g))
                   (EvDigitalWrite BUTTON_LED (button b) ::
                    (if press_edge (lastState g) (button b)
                     then [EvDigitalWrite PI_LED HIGH; EvKeyboardPress " "%char;
                           EvKeyboardReleaseAll]
                     else [EvDigitalWrite PI_LED LOW])) = []).
  { destruct p; cbn [led]; rewrite ?W1, ?W2;
      destruct (press_edge _ _); reflexivity. }
  rewrite Hbtn. cbn [app].
  set (b1 := if press_edge (lastState g) (button b)
             then with_clock b (ulong (clock b + 50)) else b).
  assert (He1 : elapsed b1 = [])
    by (subst b1; destruct (press_edge _ _); exact He).
  assert (Hrx1 : rx b1 = c :: cs)
    by (subst b1; destruct (press_edge _ _); exact Hrx).
  assert (Hc1 : clock b1 = if press_edge (lastState g) (button b)
                           then ulong (clock b + 50) else clock b)
    by (subst b1; destruct (press_edge _ _); reflexivity).
  set (g1 := with_lastState g (button b)).
  destruct (loop_serial_blink g1 b1 c cs p m He1 Hrx1 Hin Hb) as [Hled Hw].
  pose proof (loop_serial_pin g1 b1 PLAYER1) as Hp1.
  pose proof (loop_serial_pin g1 b1 PLAYER2) as Hp2.
  assert (Eg : led p g1 = led p g) by apply led_with_lastState.
  rewrite Eg in Hled, Hw. rewrite Hc1 in Hled.
  cbn [led] in Hp1, Hp2.
  change (P1 g1) with (P1 g) in Hp1. change (P2 g1) with (P2 g) in Hp2.
  clearbody b1 g1.
  revert Hled Hw Hp1 Hp2. generalize (loop_serial g1 b1).
  intros r2 Hled Hw Hp1 Hp2.
  rewrite !pin_writes_app, Hw. cbn [app].
  assert (Hne : pin (P1 g) <> pin (P2 g)) by (rewrite W1, W2; discriminate).
  assert (Htick :
            updateBlink (led p (val r2)) (clock b) (mkBoard 0 [] LOW []) =
            mkRes (mkPlayerLed (pin (led p g)) m (clock b)
                     (if press_edge (lastState g) (button b)
                      then toggled (currentLevel (led p g))
                      else currentLevel (led p g)))
                  (mkBoard 0 [] LOW [])
                  (if press_edge (lastState g) (button b)
                   then [EvDigitalWrite (pin (led p g))
                           (toggled (currentLevel (led p g)))]
                   else [])).
  { rewrite Hled. destruct (press_edge (lastState g) (button b)).
    - rewrite updateBlink_due; [reflexivity|exact Hb|].
      cbn [mode lastToggleMs].
      rewrite ulong_sub_behind; unfold ULONG_MAX; lia.
    - rewrite updateBlink_early; [reflexivity|].
      cbn [mode lastToggleMs]. rewrite ulong_sub_same. lia. }
  rewrite (updateBlink_canon (P1 (val r2))).
  rewrite (updateBlink_canon (P2 (val r2))).
  cbn [val board out].
  destruct p; cbn [led with_P1 with_P2 P1 P2] in *; rewrite Htick;
    cbn [val out].
  - rewrite (proj2 (updateBlink_tracks (P2 (val r2)) (clock b) _ (pin (P1 g))))
      by (rewrite Hp2; exact Hne).
    rewrite app_nil_r.
    split; [reflexivity|].
    destruct (press_edge _ _); simpl; rewrite ?Z.eqb_refl; reflexivity.
  - rewrite (proj2 (updateBlink_tracks (P1 (val r2)) (clock b) _ (pin (P2 g))))
      by (rewrite Hp1; exact (not_eq_sym Hne)).
    split; [reflexivity|].
    destruct (press_edge _ _); simpl; rewrite ?Z.eqb_refl; reflexivity.
Qed.

Lemma X7_witness :
  elapsed (mkBoard 1000 [] HIGH ["1"%char]) = [] /\
  rx (mkBoard 1000 [] HIGH ["1"%char]) = ["1"%char] /\
  In (PLAYER1, BLINK_1HZ) (interpret "1"%char) /\
  is_blink BLINK_1HZ = true /\
  wired (mkGlobals (P1 initial) (P2 initial) LOW) /\
  led PLAYER1 (val (loop (mkGlobals (P1 initial) (P2 initial) LOW)
                         (mkBoard 1000 [] HIGH ["1"%char]))) =
  mkPlayerLed P1_LED_PIN BLINK_1HZ 1000 HIGH.
Proof.
  split; [reflexivity|]. split; [reflexivity|].
  split; [left; reflexivity|]. split; [reflexivity|].
  split; [split; reflexivity|].
  exact (proj1 (X7_blink_command_and_tick_of_one_pass
                  (mkGlobals (P1 initial) (P2 initial) LOW)
                  (mkBoard 1000 [] HIGH ["1"%char]) "1"%char [] PLAYER1
                  BLINK_1HZ eq_refl eq_refl (or_introl eq_refl) eq_refl
                  (conj eq_refl eq_refl))).
Defined.

(** ** Polling once per millisecond *)

Lemma ticks_app (l1 l2 : list Z) :
  forall (pl : PlayerLed) (b : Board),
    ticks pl (l1 ++ l2) b =
    mkRes (val (ticks (val (ticks pl l1 b)) l2 (board (ticks pl l1 b))))
          (board (ticks (val (ticks pl l1 b)) l2 (board (ticks pl l1 b))))
          (out (ticks pl l1 b) ++
           out (ticks (val (ticks pl l1 b)) l2 (board (ticks pl l1 b)))).
Proof.
  induction l1 as [|now l1 IH]; intros pl b.
  - cbn [app ticks ret val board out].
    destruct (ticks pl l2 b); reflexivity.
  - cbn [app ticks]. unfold bind. rewrite IH. cbn [val board out].
    rewrite app_assoc. reflexivity.
Qed.

Lemma ticks_one (pl : PlayerLed) (now : Z) (b : Board) :
  ticks pl [now] b =
  mkRes (val (updateBlink pl now b)) (board (updateBlink pl now b))
        (out (updateBlink pl now b) ++ []).
Proof. reflexivity. Qed.

Lemma poll_times_S (T : Z) (n : nat) :
  poll_times T (S n) = poll_times T n ++ [ulong (T + (Z.of_nat n + 1))].
Proof.
  unfold poll_times. rewrite seq_S, map_app. cbn [map].
  replace (Z.of_nat (1 + n)) with (Z.of_nat n + 1) by lia. reflexivity.
Qed.

Lemma ulong_sub_ulong (a c : Z) : ulong_sub (ulong a) (ulong c) = ulong (a - c).
Proof. unfold ulong_sub, ulong. symmetry. apply Zminus_mod. Qed.

Lemma toggled_times_succ (k : Z) (lv : Level) :
  toggled_times (k + 1) lv = toggled (toggled_times k lv).
Proof.
  unfold toggled_times. rewrite Z.even_add. simpl.
  destruct (Z.even k), lv; reflexivity.
Qed.

Lemma div_step (n p : Z) :
  0 <= n -> 0 < p ->
  (n mod p + 1 = p /\ (n + 1) / p = n / p + 1 /\ p * ((n + 1) / p) = n + 1) \/
  (n mod p + 1 < p /\ (n + 1) / p = n / p).
Proof.
  intros Hn Hp.
  pose proof (Z.div_mod n p ltac:(lia)) as E.
  pose proof (Z.mod_pos_bound n p Hp) as B.
  destruct (Z.eq_dec (n mod p + 1) p) as [H|H].
  - left. split; [exact H|].
    assert (D : (n + 1) / p = n / p + 1).
    { symmetry. apply (Z.div_unique (n + 1) p (n / p + 1) 0); lia. }
    split; [exact D|]. rewrite D. lia.
  - right. split; [lia|].
    symmetry. apply (Z.div_unique (n + 1) p (n / p) (n mod p + 1)); lia.
Qed.

Lemma polling_state (pl : PlayerLed) (b : Board) (n : nat) :
  is_blink (mode pl) = true ->
  0 <= lastToggleMs pl <= ULONG_MAX ->
  exists evs,
    ticks pl (poll_times (lastToggleMs pl) n) b =
    mkRes (mkPlayerLed (pin pl) (mode pl)
             (ulong (lastToggleMs pl +
                     modeToInterval (mode pl) *
                     (Z.of_nat n / modeToInterval (mode pl))))
             (toggled_times (Z.of_nat n / modeToInterval (mode pl))
                            (currentLevel pl)))
          b evs /\
    length evs = Z.to_nat (Z.of_nat n / modeToInterval (mode pl)).
Proof.
  intros Hb HT.
  pose proof (interval_blink _ Hb) as Hp.
  set (p := modeToInterval (mode pl)) in *.
  set (T := lastToggleMs pl) in *.
  induction n as [|n IH].
  - exists []. split; [|reflexivity].
    cbn [poll_times seq map ticks ret Z.of_nat].
    rewrite Z.div_0_l, Z.mul_0_r, Z.add_0_r by lia.
    rewrite (ulong_small T HT). unfold toggled_times. cbn [Z.even].
    subst p T. destruct pl; reflexivity.
  - destruct IH as (evs & E & L).
    rewrite poll_times_S, ticks_app, E. cbn [val board out].
    rewrite ticks_one.
    replace (Z.of_nat (S n)) with (Z.of_nat n + 1) by lia.
    assert (Hd : ulong_sub (ulong (T + (Z.of_nat n + 1)))
                           (ulong (T + p * (Z.of_nat n / p))) =
                 Z.of_nat n mod p + 1).
    { rewrite ulong_sub_ulong.
      pose proof (Z.div_mod (Z.of_nat n) p ltac:(lia)) as D.
      pose proof (Z.mod_pos_bound (Z.of_nat n) p ltac:(lia)) as B.
      replace (T + (Z.of_nat n + 1) - (T + p * (Z.of_nat n / p)))
        with (Z.of_nat n mod p + 1) by lia.
      apply ulong_small. unfold ULONG_MAX. lia. }
    assert (Hq : 0 <= Z.of_nat n / p) by (apply Z.div_pos; lia).
    destruct (div_step (Z.of_nat n) p ltac:(lia) ltac:(lia))
      as [(Hm & Hdiv & Hmul)|(Hm & Hdiv)].
    + rewrite updateBlink_due;
        [|exact Hb|cbn [mode lastToggleMs]; fold p; rewrite Hd; lia].
      cbn [val board out pin mode currentLevel].
      rewrite Hdiv, toggled_times_succ.
      replace (p * (Z.of_nat n / p + 1)) with (Z.of_nat n + 1) by lia.
      eexists. split; [reflexivity|].
      rewrite !length_app, L. cbn [length].
      rewrite Z2Nat.inj_add by lia. simpl. lia.
    + rewrite updateBlink_early;
        [|cbn [mode lastToggleMs]; fold p; rewrite Hd; lia].
      cbn [val board out]. rewrite Hdiv.
      eexists. split; [reflexivity|].
      rewrite !app_nil_r. exact L.
Qed.

(** X8. A blinking player polled once per millisecond, as [loop] does,
    toggles exactly every period: after [n] calls of [updateBlink], the
    first one millisecond after the last toggle, the level has been
    inverted [n / p] times, as many levels have been written, and the timer
    stands at the last multiple of the period, without drift, also when
    the millisecond counter wraps on the way. *)
Theorem X8_polling_toggles_every_period :
  forall (pl : PlayerLed) (b : Board) (n : nat),
    is_blink (mode pl) = true ->
    0 <= lastToggleMs pl <= ULONG_MAX ->
    let p := modeToInterval (mode pl) in
    let k := Z.of_nat n / p in
    let r := ticks pl (poll_times (lastToggleMs pl) n) b in
    val r = mkPlayerLed (pin pl) (mode pl) (ulong (lastToggleMs pl + p * k))
                        (toggled_times k (currentLevel pl)) /\
    length (out r) = Z.to_nat k /\
    board r = b.
Proof.
  intros pl b n Hb HT. cbv zeta.
  destruct (polling_state pl b n Hb HT) as (evs & -> & L).
  repeat split. exact L.
Qed.

Lemma X8_witness :
  is_blink (mode (mkPlayerLed 16 BLINK_4HZ 4294967200 LOW)) = true /\
  0 <= lastToggleMs (mkPlayerLed 16 BLINK_4HZ 4294967200 LOW) <= ULONG_MAX /\
  val (ticks (mkPlayerLed 16 BLINK_4HZ 4294967200 LOW)
             (poll_times 4294967200 400) (mkBoard 0 [] LOW [])) =
  mkPlayerLed 16 BLINK_4HZ 279 HIGH.
Proof.
  split; [reflexivity|]. split; [unfold ULONG_MAX; simpl; lia|].
  exact (proj1 (X8_polling_toggles_every_period
                  (mkPlayerLed 16 BLINK_4HZ 4294967200 LOW)
                  (mkBoard 0 [] LOW []) 400 eq_refl
                  (conj (proj1 (Z.leb_le 0 4294967200) eq_refl)
                        (proj1 (Z.leb_le 4294967200 ULONG_MAX) eq_refl)))).
Defined.

(** ** A toggle that comes late *)

(** X9. However late a toggle comes, the timer restarts at the clock value
    of the call that toggled: missed periods are not made up, calls during
    the following period do nothing, and the next toggle is due one full
    period after the late one. *)
Theorem X9_late_toggle_restarts_period :
  forall (pl : PlayerLed) (now : Z) (b : Board),
    is_blink (mode pl) = true ->
    modeToInterval (mode pl) <= ulong_sub now (lastToggleMs pl) ->
    let p := modeToInterval (mode pl) in
    let pl' := val (updateBlink pl now b) in
    lastToggleMs pl' = now /\
    (forall k b', 0 <= k < p ->
                  idles pl' b' (updateBlink pl' (ulong (now + k)) b')) /\
    (forall b', flips pl' (ulong (now + p)) b'
                      (updateBlink pl' (ulong (now + p)) b')).
Proof.
  intros pl now b Hb Hd. cbv zeta.
  pose proof (interval_blink _ Hb) as Hp.
  rewrite (updateBlink_due pl now b Hb Hd). cbn [val].
  split; [reflexivity|]. split.
  - intros k b' Hk. apply updateBlink_early. cbn [mode lastToggleMs].
    rewrite ulong_sub_after; unfold ULONG_MAX; lia.
  - intros b'. rewrite updateBlink_due; [repeat split|exact Hb|].
    cbn [mode lastToggleMs].
    rewrite ulong_sub_after; unfold ULONG_MAX; lia.
Qed.

Lemma X9_witness :
  is_blink (mode (mkPlayerLed 16 BLINK_2HZ 1000 LOW)) = true /\
  modeToInterval (mode (mkPlayerLed 16 BLINK_2HZ 1000 LOW)) <=
  ulong_sub 1900 (lastToggleMs (mkPlayerLed 16 BLINK_2HZ 1000 LOW)) /\
  lastToggleMs (val (updateBlink (mkPlayerLed 16 BLINK_2HZ 1000 LOW) 1900
                                 (mkBoard 1900 [] LOW []))) = 1900.
Proof.
  assert (H : modeToInterval (mode (mkPlayerLed 16 BLINK_2HZ 1000 LOW)) <=
              ulong_sub 1900 (lastToggleMs (mkPlayerLed 16 BLINK_2HZ 1000 LOW)))
    by (vm_compute; discriminate).
  split; [reflexivity|]. split; [exact H|].
  exact (proj1 (X9_late_toggle_restarts_period
                  (mkPlayerLed 16 BLINK_2HZ 1000 LOW) 1900
                  (mkBoard 1900 [] LOW []) eq_refl H)).
Defined.

(** ** The cases of the switch *)

(** X10. The byte ['Y'] does what ['A'] followed by ['B'] does, and ['X']
    what ['a'] followed by ['b'] does: the same globals, the same board
    and the same writes in the same order. *)
Theorem X10_both_player_bytes_compose :
  forall (g : Globals) (b : Board),
    (let rA := loop_switch "A"%char g b in
     let rB := loop_switch "B"%char (val rA) (board rA) in
     loop_switch "Y"%char g b =
     mkRes (val rB) (board rB) (out rA ++ out rB)) /\
    (let ra := loop_switch "a"%char g b in
     let rb := loop_switch "b"%char (val ra) (board ra) in
     loop_switch "X"%char g b =
     mkRes (val rb) (board rb) (out ra ++ out rb)).
Proof.
  intros g b.
  destruct g as [p1 p2 ls], b as [cl [|d1 [|d2 el]] bt q];
    destruct p1 as [n1 m1 t1 l1], p2 as [n2 m2 t2 l2];
    split; reflexivity.
Qed.

(** X11. The bytes for player 1 leave player 2 as it is and the bytes for
    player 2 leave player 1 as it is, timer included; no byte changes the
    stored button sample, the button line or the bytes still waiting. *)
Theorem X11_switch_frame :
  forall (c : ascii) (g : Globals) (b : Board),
    (In c ["A"; "a"; "1"; "2"; "3"]%char ->
     P2 (val (loop_switch c g b)) = P2 g) /\
    (In c ["B"; "b"; "4"; "5"; "6"]%char ->
     P1 (val (loop_switch c g b)) = P1 g) /\
    lastState (val (loop_switch c g b)) = lastState g /\
    button (board (loop_switch c g b)) = button b /\
    rx (board (loop_switch c g b)) = rx b.
Proof.
  intros c g b. split; [|split; [|split]].
  - intros H. rewrite loop_switch_interpret.
    apply (apply_commands_other (interpret c) g b PLAYER2).
    simpl in H.
    repeat (destruct H as [<-|H]; [simpl; intuition discriminate|]).
    destruct H.
  - intros H. rewrite loop_switch_interpret.
    apply (apply_commands_other (interpret c) g b PLAYER1).
    simpl in H.
    repeat (destruct H as [<-|H]; [simpl; intuition discriminate|]).
    destruct H.
  - rewrite loop_switch_interpret. apply apply_commands_lastState.
  - rewrite loop_switch_interpret. apply apply_commands_board.
Qed.

Lemma X11_witness :
  In "2"%char ["A"; "a"; "1"; "2"; "3"]%char /\
  P2 (val (loop_switch "2"%char initial (mkBoard 9 [] LOW []))) = P2 initial.
Proof.
  assert (H : In "2"%char ["A"; "a"; "1"; "2"; "3"]%char)
    by (simpl; tauto).
  split; [exact H|].
  exact (proj1 (X11_switch_frame "2"%char initial (mkBoard 9 [] LOW [])) H).
Defined.

(** ** Passes without a command *)

Lemma loop_no_byte (g : Globals) (b : Board) :
  rx b = [] ->
  let g1 := with_lastState g (button b) in
  let now := val (millis b) in
  let r3 := updateBlink (P1 g) now (mkBoard 0 [] LOW []) in
  let r4 := updateBlink (P2 g) now (mkBoard 0 [] LOW []) in
  val (loop g b) = with_P2 (with_P1 g1 (val r3)) (val r4) /\
  out (loop g b) =
  (EvDigitalWrite BUTTON_LED (button b) ::
   if press_edge (lastState g) (button b)
   then [EvDigitalWrite PI_LED HIGH; EvKeyboardPress " "%char;
         EvKeyboardReleaseAll]
   else [EvDigitalWrite PI_LED LOW]) ++ out r3 ++ out r4.
Proof.
  intros Hrx. cbv zeta.
  rewrite loop_eq. cbn [val out].
  rewrite loop_button_eq. cbn [val board out].
  destruct (millis_board b) as [Hbt Hq]. rewrite Hbt.
  assert (H1 : rx (if press_edge (lastState g) (button b)
                   then with_clock (board (millis b))
                                   (ulong (clock (board (millis b)) + 50))
                   else board (millis b)) = []).
  { destruct (press_edge _ _); cbn [with_clock rx]; rewrite Hq; exact Hrx. }
  rewrite (loop_serial_empty _ _ H1). cbn [val board out app].
  rewrite (updateBlink_canon (P1 _)). cbn [val board out].
  rewrite (updateBlink_canon (P2 _)). cbn [val board out].
  split; reflexivity.
Qed.

(** X12. A pass that finds no byte while both players are in static modes
    leaves both players as they are and writes to the button LED and the
    built-in LED only; all it changes is the stored button sample. *)
Theorem X12_idle_pass :
  forall (g : Globals) (b : Board),
    rx b = [] ->
    is_blink (mode (P1 g)) = false -> is_blink (mode (P2 g)) = false ->
    val (loop g b) = with_lastState g (button b) /\
    out (loop g b) =
    EvDigitalWrite BUTTON_LED (button b) ::
    (if press_edge (lastState g) (button b)
     then [EvDigitalWrite PI_LED HIGH; EvKeyboardPress " "%char;
           EvKeyboardReleaseAll]
     else [EvDigitalWrite PI_LED LOW]).
Proof.
  intros g b Hrx H1 H2.
  destruct (loop_no_byte g b Hrx) as [Hv Ho]. rewrite Hv, Ho.
  rewrite (updateBlink_static (P1 g) _ _ H1).
  rewrite (updateBlink_static (P2 g) _ _ H2).
  cbn [val out]. rewrite !app_nil_r.
  split; [destruct g; reflexivity|reflexivity].
Qed.

Lemma X12_witness :
  rx (mkBoard 3 [] HIGH []) = [] /\
  is_blink (mode (P1 initial)) = false /\
  is_blink (mode (P2 initial)) = false /\
  val (loop initial (mkBoard 3 [] HIGH [])) = with_lastState initial HIGH.
Proof.
  split; [reflexivity|]. split; [reflexivity|]. split; [reflexivity|].
  exact (proj1 (X12_idle_pass initial (mkBoard 3 [] HIGH [])
                              eq_refl eq_refl eq_refl)).
Defined.

(** ** Two players in step *)

Lemma toggled_inj (a c : Level) : toggled a = toggled c <-> a = c.
Proof. destruct a, c; split; intros H; try discriminate; reflexivity. Qed.

Lemma loop_in_step (g : Globals) (b : Board) :
  rx b = [] ->
  mode (P1 g) = mode (P2 g) ->
  lastToggleMs (P1 g) = lastToggleMs (P2 g) ->
  mode (P1 (val (loop g b))) = mode (P1 g) /\
  mode (P2 (val (loop g b))) = mode (P2 g) /\
  lastToggleMs (P1 (val (loop g b))) = lastToggleMs (P2 (val (loop g b))) /\
  (currentLevel (P1 (val (loop g b))) = currentLevel (P2 (val (loop g b))) <->
   currentLevel (P1 g) = currentLevel (P2 g)).
Proof.
  intros Hrx Hm Ht.
  destruct (loop_no_byte g b Hrx) as [Hv _]. rewrite Hv.
  cbn [with_P1 with_P2 P1 P2].
  generalize (val (millis b)). intros now.
  destruct (is_blink (mode (P1 g))) eqn:Hb.
  - assert (Hb2 : is_blink (mode (P2 g)) = true) by (rewrite <- Hm; exact Hb).
    destruct (Z.le_gt_cases (modeToInterval (mode (P1 g)))
                            (ulong_sub now (lastToggleMs (P1 g)))) as [Hd|Hd].
    + assert (Hd2 : modeToInterval (mode (P2 g)) <=
                    ulong_sub now (lastToggleMs (P2 g)))
        by (rewrite <- Hm, <- Ht; exact Hd).
      rewrite (updateBlink_due (P1 g) now _ Hb Hd).
      rewrite (updateBlink_due (P2 g) now _ Hb2 Hd2).
      cbn [val mode lastToggleMs currentLevel].
      repeat split; try reflexivity; apply toggled_inj.
    + assert (Hd2 : ulong_sub now (lastToggleMs (P2 g)) <
                    modeToInterval (mode (P2 g)))
        by (rewrite <- Hm, <- Ht; exact Hd).
      rewrite (updateBlink_early (P1 g) now _ Hd).
      rewrite (updateBlink_early (P2 g) now _ Hd2).
      cbn [val]. repeat split; auto.
  - assert (Hb2 : is_blink (mode (P2 g)) = false) by (rewrite <- Hm; exact Hb).
    rewrite (updateBlink_static (P1 g) now _ Hb).
    rewrite (updateBlink_static (P2 g) now _ Hb2).
    cbn [val]. repeat split; auto.
Qed.

(** X13. Two players in the same mode with the same timer stay in step as
    long as no byte arrives: [loop] hands both the same clock value, so
    after any number of passes they are still in the same mode with the
    same timer, and they show equal levels exactly if they did at the
    start. *)
Theorem X13_players_in_step_stay_in_step :
  forall (raws : list Level) (g : Globals) (b : Board),
    rx b = [] ->
    mode (P1 g) = mode (P2 g) ->
    lastToggleMs (P1 g) = lastToggleMs (P2 g) ->
    mode (P1 (val (loops raws g b))) = mode (P2 (val (loops raws g b))) /\
    lastToggleMs (P1 (val (loops raws g b))) =
    lastToggleMs (P2 (val (loops raws g b))) /\
    (currentLevel (P1 (val (loops raws g b))) =
     currentLevel (P2 (val (loops raws g b))) <->
     currentLevel (P1 g) = currentLevel (P2 g)).
Proof.
  induction raws as [|raw rest IH]; intros g b Hrx Hm Ht.
  - rewrite (proj1 (loops_nil g b)). repeat split; auto.
  - rewrite loops_val_cons.
    assert (Hrx1 : rx (with_button b raw) = []) by exact Hrx.
    destruct (loop_in_step g (with_button b raw) Hrx1 Hm Ht)
      as (M1 & M2 & T' & L').
    assert (Hrx2 : rx (board (loop g (with_button b raw))) = []).
    { rewrite (proj1 (loop_board g (with_button b raw))), Hrx1.
      reflexivity. }
    assert (Hm' : mode (P1 (val (loop g (with_button b raw)))) =
                  mode (P2 (val (loop g (with_button b raw)))))
      by (rewrite M1, M2; exact Hm).
    destruct (IH _ _ Hrx2 Hm' T') as (A & B & C).
    split; [exact A|]. split; [exact B|].
    rewrite C. exact L'.
Qed.

Lemma X13_witness :
  rx (mkBoard 0 [] LOW []) = [] /\
  mode (P1 (mkGlobals (mkPlayerLed 16 BLINK_4HZ 0 LOW)
                      (mkPlayerLed 17 BLINK_4HZ 0 HIGH) HIGH)) =
  mode (P2 (mkGlobals (mkPlayerLed 16 BLINK_4HZ 0 LOW)
                      (mkPlayerLed 17 BLINK_4HZ 0 HIGH) HIGH)) /\
  lastToggleMs (P1 (val (loops [LOW; LOW; HIGH]
                               (mkGlobals (mkPlayerLed 16 BLINK_4HZ 0 LOW)
                                          (mkPlayerLed 17 BLINK_4HZ 0 HIGH)
                                          HIGH)
                               (mkBoard 0 [] LOW [])))) =
  lastToggleMs (P2 (val (loops [LOW; LOW; HIGH]
                               (mkGlobals (mkPlayerLed 16 BLINK_4HZ 0 LOW)
                                          (mkPlayerLed 17 BLINK_4HZ 0 HIGH)
                                          HIGH)
                               (mkBoard 0 [] LOW [])))).
Proof.
  split; [reflexivity|]. split; [reflexivity|].
  exact (proj1 (proj2 (X13_players_in_step_stay_in_step
                         [LOW; LOW; HIGH]
                         (mkGlobals (mkPlayerLed 16 BLINK_4HZ 0 LOW)
                                    (mkPlayerLed 17 BLINK_4HZ 0 HIGH) HIGH)
                         (mkBoard 0 [] LOW []) eq_refl eq_refl eq_refl))).
Defined.

(** ** A static command and the tick of the same pass *)

Lemma loop_static_command (g : Globals) (b : Board) (c : ascii)
      (cs : list ascii) (p : Player) (m : LedMode) :
  rx b = c :: cs -> In (p, m) (interpret c) -> is_blink m = false ->
  mode (led p (val (loop g b))) = m /\
  currentLevel (led p (val (loop g b))) = level_after m LOW.
Proof.
  intros Hrx Hin Hm.
  destruct (loop_command g b c cs p Hrx) as [H _].
  destruct (H m Hin Hm) as [H1 H2]. split; [exact H1|].
  rewrite H2. destruct m; try discriminate; reflexivity.
Qed.

(** X14. A pass that finds ['A'] or ['Y'] leaves player 1 in [SOLID_ON] at
    [HIGH], one that finds ['a'] or ['X'] leaves it in [OFF_MODE] at
    [LOW]; likewise ['B'], ['Y'] and ['b'], ['X'] for player 2.  This
    holds whatever the player was doing and whatever the clock reads: the
    tick at the end of the pass does not touch a player the pass has just
    put in a static mode, even one that was blinking and due. *)
Theorem X14_static_command_settles_in_its_pass :
  forall (g : Globals) (b : Board) (c : ascii) (cs : list ascii),
    rx b = c :: cs ->
    (In c ["A"; "Y"]%char ->
     mode (P1 (val (loop g b))) = SOLID_ON /\
     currentLevel (P1 (val (loop g b))) = HIGH) /\
    (In c ["a"; "X"]%char ->
     mode (P1 (val (loop g b))) = OFF_MODE /\
     currentLevel (P1 (val (loop g b))) = LOW) /\
    (In c ["B"; "Y"]%char ->
     mode (P2 (val (loop g b))) = SOLID_ON /\
     currentLevel (P2 (val (loop g b))) = HIGH) /\
    (In c ["b"; "X"]%char ->
     mode (P2 (val (loop g b))) = OFF_MODE /\
     currentLevel (P2 (val (loop g b))) = LOW).
Proof.
  intros g b c cs Hrx.
  split; [|split; [|split]]; intros H; simpl in H.
  - rewrite <- !led_P1.
    apply (loop_static_command g b c cs PLAYER1 SOLID_ON Hrx);
      [|reflexivity].
    destruct H as [<-|[<-|[]]]; simpl; tauto.
  - rewrite <- !led_P1.
    apply (loop_static_command g b c cs PLAYER1 OFF_MODE Hrx);
      [|reflexivity].
    destruct H as [<-|[<-|[]]]; simpl; tauto.
  - rewrite <- !led_P2.
    apply (loop_static_command g b c cs PLAYER2 SOLID_ON Hrx);
      [|reflexivity].
    destruct H as [<-|[<-|[]]]; simpl; tauto.
  - rewrite <- !led_P2.
    apply (loop_static_command g b c cs PLAYER2 OFF_MODE Hrx);
      [|reflexivity].
    destruct H as [<-|[<-|[]]]; simpl; tauto.
Qed.

Lemma X14_witness :
  rx (mkBoard 2000 [] LOW ["a"%char]) = ["a"%char] /\
  In "a"%char ["a"; "X"]%char /\
  currentLevel
    (P1 (val (loop (mkGlobals (mkPlayerLed 16 BLINK_1HZ 1000 HIGH)
                              (P2 initial) LOW)
                   (mkBoard 2000 [] LOW ["a"%char])))) = LOW.
Proof.
  assert (H : In "a"%char ["a"; "X"]%char) by (simpl; tauto).
  split; [reflexivity|]. split; [exact H|].
  exact (proj2 (proj1 (proj2 (X14_static_command_settles_in_its_pass
                                (mkGlobals (mkPlayerLed 16 BLINK_1HZ 1000 HIGH)
                                           (P2 initial) LOW)
                                (mkBoard 2000 [] LOW ["a"%char])
                                "a"%char [] eq_refl)) H)).
Defined.
